(** * Onion-routing workshop: registry, onion routers and users

    A shallow embedding of [src/crypto.ts], [src/registry/registry.ts],
    the onion router ([simpleOnionRouter]) and the user ([user]), with the
    properties of the specification stated over it.

    Layout: platform values (bytes, UTF-16 strings, numbers), the platform
    codecs the code calls (base64 of [Buffer], [TextEncoder]/[TextDecoder]),
    the WebCrypto primitives as an interface with their contracts, then the
    repository's own functions, then the theorems. *)

From Stdlib Require Import List NArith ZArith Lia Bool.
From Stdlib.Strings Require Import Byte Ascii String.
Import ListNotations.

(* ================================================================== *)
(** ** Platform values *)
(* ================================================================== *)

Module JS.

(** A [Uint8Array] / [ArrayBuffer] is a list of bytes. *)
Definition bytes := list byte.

Definition byte_of_N (n : N) : byte :=
  match Byte.of_N (n mod 256) with
  | Some b => b
  | None => x00
  end.

(** A JavaScript string is a sequence of 16-bit code units. *)
Record code_unit := CU { cu_hi : byte; cu_lo : byte }.

Definition jsstring := list code_unit.

Definition code (c : code_unit) : N :=
  256 * Byte.to_N (cu_hi c) + Byte.to_N (cu_lo c).

Definition unit_of (n : N) : code_unit :=
  CU (byte_of_N (n / 256)) (byte_of_N n).

Definition code_unit_eqb (a b : code_unit) : bool :=
  Byte.eqb (cu_hi a) (cu_hi b) && Byte.eqb (cu_lo a) (cu_lo b).

(** A string literal of the source, all of whose characters are ASCII. *)
Definition lit (s : string) : jsstring :=
  List.map (fun b => CU x00 b) (list_byte_of_string s).

(** [s.slice(0, n)] and [s.slice(n)] for a constant [n >= 0]: [slice]
    clamps its bounds to the length of the string. *)
Definition slice_to (n : nat) (s : jsstring) : jsstring := firstn n s.
Definition slice_from (n : nat) (s : jsstring) : jsstring := skipn n s.

(** [s.padStart(n, "0")]: pads on the left up to length [n], and leaves
    a string that is already that long untouched (it never truncates). *)
Definition padStart (n : nat) (s : jsstring) : jsstring :=
  List.repeat (unit_of 48) (n - List.length s) ++ s.

(** Numbers.  The identifiers and ports of the program are integers far
    below 2^53, where the arithmetic of doubles is that of [Z]; [NaN] is
    what [parseInt] returns when it finds no digit. *)
Inductive number := NaN | Num (z : Z).

(** Decimal digits of [n], most significant first; [fuel] bounds the
    number of digits. *)
Fixpoint decimal_digits (fuel : nat) (n : N) : list N :=
  match fuel with
  | O => []
  | S f => if (n <? 10)%N then [n]
           else decimal_digits f (n / 10) ++ [n mod 10]
  end%N.

Definition digit_unit (d : N) : code_unit := unit_of (48 + d).

Definition N_toString (n : N) : jsstring :=
  List.map digit_unit (decimal_digits (S (N.to_nat (N.log2 n))) n).

(** [`${z}`] for an integer [z]. *)
Definition toString (z : Z) : jsstring :=
  match z with
  | Zneg p => unit_of 45 :: N_toString (Npos p)
  | _ => N_toString (Z.to_N z)
  end.

(** White space and line terminators skipped by [parseInt]. *)
Definition is_white_space (c : code_unit) : bool :=
  let v := code c in
  ((9 <=? v) && (v <=? 13) || (v =? 32) || (v =? 160) || (v =? 5760)
   || ((8192 <=? v) && (v <=? 8202)) || (v =? 8232) || (v =? 8233)
   || (v =? 8239) || (v =? 8287) || (v =? 12288) || (v =? 65279))%N.

Fixpoint skip_white_space (s : jsstring) : jsstring :=
  match s with
  | c :: r => if is_white_space c then skip_white_space r else s
  | [] => []
  end.

Definition is_digit (c : code_unit) : bool :=
  ((48 <=? code c) && (code c <=? 57))%N.

(** The longest prefix of decimal digits, as their values. *)
Fixpoint leading_digits (s : jsstring) : list N :=
  match s with
  | c :: r => if is_digit c then (code c - 48)%N :: leading_digits r else []
  | [] => []
  end.

Definition digits_value (ds : list N) : N :=
  fold_left (fun acc d => 10 * acc + d)%N ds 0%N.

Definition parse_digits (s : jsstring) : option N :=
  match leading_digits s with
  | [] => None
  | ds => Some (digits_value ds)
  end.

(** [parseInt(s, 10)]. *)
Definition parseInt (s : jsstring) : number :=
  match skip_white_space s with
  | [] => NaN
  | c :: r =>
      if (code c =? 45)%N then
        match parse_digits r with
        | Some n => Num (- Z.of_N n)
        | None => NaN
        end
      else if (code c =? 43)%N then
        match parse_digits r with
        | Some n => Num (Z.of_N n)
        | None => NaN
        end
      else
        match parse_digits (c :: r) with
        | Some n => Num (Z.of_N n)
        | None => NaN
        end
  end.

End JS.


(* ================================================================== *)
(** ** Platform codecs *)
(* ================================================================== *)

(** [Buffer]: the base64 conversions of Node. *)
Module Buffer.
Import JS.

(** The character of the standard alphabet for a 6-bit value. *)
Definition alphabet (v : N) : code_unit :=
  (if v <? 26 then unit_of (65 + v)
   else if v <? 52 then unit_of (97 + (v - 26))
   else if v <? 62 then unit_of (48 + (v - 52))
   else if v =? 62 then unit_of 43
   else unit_of 47)%N.

Definition pad : code_unit := unit_of 61.

(** [Buffer.from(bytes).toString("base64")]: three bytes give four
    characters; a last group of one or two bytes is padded with [=]. *)
Fixpoint toString_base64 (bs : bytes) : jsstring :=
  match bs with
  | [] => []
  | [a] =>
      let a := Byte.to_N a in
      [alphabet (a / 4); alphabet ((a mod 4) * 16); pad; pad]
  | [a; b] =>
      let a := Byte.to_N a in
      let b := Byte.to_N b in
      [alphabet (a / 4); alphabet ((a mod 4) * 16 + b / 16);
       alphabet ((b mod 16) * 4); pad]
  | a :: b :: c :: rest =>
      let a := Byte.to_N a in
      let b := Byte.to_N b in
      let c := Byte.to_N c in
      alphabet (a / 4) :: alphabet ((a mod 4) * 16 + b / 16)
        :: alphabet ((b mod 16) * 4 + c / 64) :: alphabet (c mod 64)
        :: toString_base64 rest
  end%N.

(** The decoder of Node reads a code unit of the string as one byte: the
    low byte of the unit.  (U+0141 is read as [A], U+D83D as [=].) *)
Definition low_byte (c : code_unit) : N := Byte.to_N (cu_lo c).

(** The 6-bit value of a character: the standard alphabet, and the
    URL-safe [-] and [_] that Node accepts as well. *)
Definition unbase64 (c : code_unit) : option N :=
  let v := low_byte c in
  (if (65 <=? v) && (v <=? 90) then Some (v - 65)
   else if (97 <=? v) && (v <=? 122) then Some (v - 97 + 26)
   else if (48 <=? v) && (v <=? 57) then Some (v - 48 + 52)
   else if (v =? 43) || (v =? 45) then Some 62
   else if (v =? 47) || (v =? 95) then Some 63
   else None)%N.

(** Node decodes leniently: characters outside the alphabet are skipped
    and decoding stops at the first [=]. *)
Fixpoint sextets (s : jsstring) : list N :=
  match s with
  | [] => []
  | c :: r =>
      if (low_byte c =? 61)%N then []
      else match unbase64 c with
           | Some v => v :: sextets r
           | None => sextets r
           end
  end.

Fixpoint bytes_of_sextets (l : list N) : bytes :=
  match l with
  | s1 :: s2 :: s3 :: s4 :: r =>
      byte_of_N (s1 * 4 + s2 / 16) :: byte_of_N ((s2 mod 16) * 16 + s3 / 4)
        :: byte_of_N ((s3 mod 4) * 64 + s4) :: bytes_of_sextets r
  | [s1; s2; s3] =>
      [byte_of_N (s1 * 4 + s2 / 16); byte_of_N ((s2 mod 16) * 16 + s3 / 4)]
  | [s1; s2] => [byte_of_N (s1 * 4 + s2 / 16)]
  | _ => []
  end%N.

(** [Buffer.from(s, "base64")]; it never throws. *)
Definition from_base64 (s : jsstring) : bytes := bytes_of_sextets (sextets s).

End Buffer.

(** [TextEncoder] and [TextDecoder] (the Encoding standard, UTF-8). *)
Module Text.
Import JS.

Definition is_high_surrogate (v : N) : bool := ((55296 <=? v) && (v <=? 56319))%N.
Definition is_low_surrogate (v : N) : bool := ((56320 <=? v) && (v <=? 57343))%N.

Definition replacement : N := 65533.
Definition byte_order_mark : N := 65279.

(** The code points of a string: a surrogate pair is one code point, and
    a surrogate that is not part of a pair is replaced by U+FFFD (the
    conversion to a scalar value string that [encode] applies). *)
Fixpoint code_points (s : jsstring) : list N :=
  match s with
  | [] => []
  | c :: r =>
      let v := code c in
      if is_high_surrogate v then
        match r with
        | d :: r' =>
            if is_low_surrogate (code d)
            then (65536 + (v - 55296) * 1024 + (code d - 56320))%N :: code_points r'
            else replacement :: code_points r
        | [] => [replacement]
        end
      else if is_low_surrogate v then replacement :: code_points r
      else v :: code_points r
  end.

(** UTF-8 bytes of one scalar value. *)
Definition utf8_encode_code_point (cp : N) : bytes :=
  (if cp <? 128 then [byte_of_N cp]
   else if cp <? 2048 then
     [byte_of_N (192 + cp / 64); byte_of_N (128 + cp mod 64)]
   else if cp <? 65536 then
     [byte_of_N (224 + cp / 4096); byte_of_N (128 + (cp / 64) mod 64);
      byte_of_N (128 + cp mod 64)]
   else
     [byte_of_N (240 + cp / 262144); byte_of_N (128 + (cp / 4096) mod 64);
      byte_of_N (128 + (cp / 64) mod 64); byte_of_N (128 + cp mod 64)])%N.

(** [new TextEncoder().encode(s)]. *)
Definition encode (s : jsstring) : bytes :=
  flat_map utf8_encode_code_point (code_points s).

(** State of the UTF-8 decoder: the code point being assembled, the
    number of continuation bytes still needed, and the bounds the next
    byte must lie between. *)
Record decoder_state := Decoder {
  utf8_code_point : N;
  utf8_bytes_needed : N;
  utf8_lower : N;
  utf8_upper : N
}.

Definition decoder_start : decoder_state := Decoder 0 0 128 191.

(** A byte read when no sequence is in progress: what is emitted, and
    the next state. *)
Definition lead_byte (v : N) : list N * decoder_state :=
  (if v <=? 127 then ([v], decoder_start)
   else if (194 <=? v) && (v <=? 223) then ([], Decoder (v mod 32) 1 128 191)
   else if (224 <=? v) && (v <=? 239) then
     ([], Decoder (v mod 16) 2 (if v =? 224 then 160 else 128)
                                (if v =? 237 then 159 else 191))
   else if (240 <=? v) && (v <=? 244) then
     ([], Decoder (v mod 8) 3 (if v =? 240 then 144 else 128)
                               (if v =? 244 then 143 else 191))
   else ([replacement], decoder_start))%N.

(** The decoder, not in fatal mode: a malformed sequence gives U+FFFD and
    the offending byte is read again as the start of a sequence. *)
Fixpoint utf8_decode (st : decoder_state) (bs : bytes) : list N :=
  match bs with
  | [] => if (utf8_bytes_needed st =? 0)%N then [] else [replacement]
  | b :: r =>
      let v := Byte.to_N b in
      if (utf8_bytes_needed st =? 0)%N then
        fst (lead_byte v) ++ utf8_decode (snd (lead_byte v)) r
      else if ((utf8_lower st <=? v) && (v <=? utf8_upper st))%N then
        let cp := (utf8_code_point st * 64 + v mod 64)%N in
        if (utf8_bytes_needed st =? 1)%N then cp :: utf8_decode decoder_start r
        else utf8_decode (Decoder cp (utf8_bytes_needed st - 1) 128 191) r
      else
        replacement :: fst (lead_byte v) ++ utf8_decode (snd (lead_byte v)) r
  end.

(** Code units of a list of code points. *)
Definition code_units_of (cp : N) : jsstring :=
  (if cp <? 65536 then [unit_of cp]
   else [unit_of (55296 + (cp - 65536) / 1024);
         unit_of (56320 + (cp - 65536) mod 1024)])%N.

(** A leading U+FEFF is dropped ([ignoreBOM] is false by default). *)
Definition strip_byte_order_mark (cps : list N) : list N :=
  match cps with
  | cp :: r => if (cp =? byte_order_mark)%N then r else cps
  | [] => []
  end.

(** [new TextDecoder().decode(bytes)]; it never throws. *)
Definition decode (bs : bytes) : jsstring :=
  flat_map code_units_of (strip_byte_order_mark (utf8_decode decoder_start bs)).

(** The strings [encode] represents exactly: every surrogate is part of
    a pair. *)
Fixpoint well_formed (s : jsstring) : bool :=
  match s with
  | [] => true
  | c :: r =>
      if is_high_surrogate (code c) then
        match r with
        | d :: r' => is_low_surrogate (code d) && well_formed r'
        | [] => false
        end
      else negb (is_low_surrogate (code c)) && well_formed r
  end.

(** [s.toWellFormed()]: the string with every surrogate that is not part
    of a pair replaced by U+FFFD. *)
Definition toWellFormed (s : jsstring) : jsstring :=
  flat_map code_units_of (code_points s).

Definition starts_with_byte_order_mark (s : jsstring) : bool :=
  match s with
  | c :: _ => (code c =? byte_order_mark)%N
  | [] => false
  end.

(** Strings of ASCII characters. *)
Definition ascii (s : jsstring) : Prop := Forall (fun c => (code c < 128)%N) s.

End Text.

(* ================================================================== *)
(** ** The WebCrypto primitives *)
(* ================================================================== *)

(** [webcrypto.subtle], as far as [crypto.ts] uses it: RSA-OAEP with
    SHA-256 and AES-CBC.  The primitives are not part of the repository;
    they are an interface, together with the contracts of the Web
    Cryptography API that the properties of the program rest on.
    Randomised operations take the random bytes they draw as an argument,
    and an operation that rejects returns [None]. *)
Module WebCrypto.
Import JS.

Class Subtle := {
  PublicKey : Type;
  PrivateKey : Type;
  SecretKey : Type;

  (** [generateKey({name: "RSA-OAEP", modulusLength, hash: "SHA-256"})] *)
  generateKey_RSA_OAEP : N -> bytes -> PublicKey * PrivateKey;
  (** [exportKey("spki", k)], [importKey("spki", ...)] and the same for
      ["pkcs8"] *)
  exportKey_spki : PublicKey -> bytes;
  importKey_spki : bytes -> option PublicKey;
  exportKey_pkcs8 : PrivateKey -> bytes;
  importKey_pkcs8 : bytes -> option PrivateKey;
  (** [encrypt({name: "RSA-OAEP"}, k, data)], with the random seed of the
      padding, and [decrypt] *)
  encrypt_RSA_OAEP : PublicKey -> bytes -> bytes -> option bytes;
  decrypt_RSA_OAEP : PrivateKey -> bytes -> option bytes;

  (** [generateKey({name: "AES-CBC", length})] *)
  generateKey_AES_CBC : N -> bytes -> SecretKey;
  (** [exportKey("raw", k)] and [importKey("raw", ...)] *)
  exportKey_raw : SecretKey -> bytes;
  importKey_raw : bytes -> option SecretKey;
  (** [encrypt({name: "AES-CBC", iv}, k, data)] and [decrypt] *)
  encrypt_AES_CBC : SecretKey -> bytes -> bytes -> option bytes;
  decrypt_AES_CBC : SecretKey -> bytes -> bytes -> option bytes;

  (** Exported keys import back. *)
  import_export_spki : forall k, importKey_spki (exportKey_spki k) = Some k;
  import_export_pkcs8 : forall k, importKey_pkcs8 (exportKey_pkcs8 k) = Some k;
  import_export_raw : forall k, importKey_raw (exportKey_raw k) = Some k;
  (** A PKCS #8 structure is not empty, and an AES key is 128 to 256
      bits long. *)
  pkcs8_not_empty : forall k, exportKey_pkcs8 k <> [];
  raw_key_length : forall k, 16 <= List.length (exportKey_raw k) <= 32;
  (** RSA-OAEP with SHA-256 under a modulus of [n] bits, a multiple of
      8, encrypts up to [n/8 - 66] bytes into exactly [n/8] bytes, and the
      private key of the pair decrypts them. *)
  RSA_OAEP_correct : forall n seed seed' data,
    (n mod 8 = 0)%N ->
    (N.of_nat (List.length data) + 66 <= n / 8)%N ->
    exists c,
      encrypt_RSA_OAEP (fst (generateKey_RSA_OAEP n seed)) seed' data = Some c
      /\ N.of_nat (List.length c) = (n / 8)%N
      /\ decrypt_RSA_OAEP (snd (generateKey_RSA_OAEP n seed)) c = Some data;
  (** AES-CBC with a 16-byte initialisation vector encrypts any data,
      and decrypts it with the same key and vector. *)
  AES_CBC_correct : forall k iv data,
    List.length iv = 16 ->
    exists c,
      encrypt_AES_CBC k iv data = Some c
      /\ decrypt_AES_CBC k iv c = Some data
}.

End WebCrypto.

(** [crypto.getRandomValues(new Uint8Array(n))]: the first [n] bytes of
    the random source. *)
Definition getRandomValues (random : nat -> byte) (n : nat) : JS.bytes :=
  List.map random (seq 0 n).

(** Sequencing of operations that may throw. *)
Notation "x <- e ;; k" :=
  (match e with Some x => k | None => None end)
  (at level 61, e at next level, right associativity, only parsing).

(* ================================================================== *)
(** ** [src/crypto.ts] *)
(* ================================================================== *)

Module Crypto.
Import JS WebCrypto.

Definition arrayBufferToBase64 (buffer : bytes) : jsstring :=
  Buffer.toString_base64 buffer.

Definition base64ToArrayBuffer (base64 : jsstring) : bytes :=
  Buffer.from_base64 base64.

Section WithSubtle.
Context {subtle : Subtle}.

Definition generateRsaKeyPair (seed : bytes) : PublicKey * PrivateKey :=
  generateKey_RSA_OAEP 2048 seed.

Definition exportPubKey (key : PublicKey) : jsstring :=
  arrayBufferToBase64 (exportKey_spki key).

Definition exportPrvKey (key : option PrivateKey) : option jsstring :=
  match key with
  | None => None
  | Some key => Some (arrayBufferToBase64 (exportKey_pkcs8 key))
  end.

Definition importPubKey (strKey : jsstring) : option PublicKey :=
  importKey_spki (base64ToArrayBuffer strKey).

Definition importPrvKey (strKey : jsstring) : option PrivateKey :=
  importKey_pkcs8 (base64ToArrayBuffer strKey).

(** [seed] is the randomness of the OAEP padding. *)
Definition rsaEncrypt (seed : bytes) (b64Data strPublicKey : jsstring)
  : option jsstring :=
  publicKey <- importPubKey strPublicKey ;;
  let dataBuffer := base64ToArrayBuffer b64Data in
  encryptedData <- encrypt_RSA_OAEP publicKey seed dataBuffer ;;
  Some (arrayBufferToBase64 encryptedData).

Definition rsaDecrypt (data : jsstring) (privateKey : PrivateKey)
  : option jsstring :=
  let encryptedDataBuffer := base64ToArrayBuffer data in
  decryptedData <- decrypt_RSA_OAEP privateKey encryptedDataBuffer ;;
  Some (arrayBufferToBase64 decryptedData).

Definition createRandomSymmetricKey (seed : bytes) : SecretKey :=
  generateKey_AES_CBC 256 seed.

Definition exportSymKey (key : SecretKey) : jsstring :=
  arrayBufferToBase64 (exportKey_raw key).

Definition importSymKey (strKey : jsstring) : option SecretKey :=
  importKey_raw (base64ToArrayBuffer strKey).

(** [random] is the source of the random bytes of the initialisation
    vector. *)
Definition symEncrypt (random : nat -> byte) (key : SecretKey) (data : jsstring)
  : option jsstring :=
  let dataBuffer := Text.encode data in
  let iv := getRandomValues random 16 in
  encryptedData <- encrypt_AES_CBC key iv dataBuffer ;;
  let encryptedDataB64 := arrayBufferToBase64 encryptedData in
  Some (arrayBufferToBase64 iv ++ encryptedDataB64).

Definition symDecrypt (strKey encryptedData : jsstring) : option jsstring :=
  key <- importSymKey strKey ;;
  let iv := base64ToArrayBuffer (slice_to 24 encryptedData) in
  let encryptedDataBuffer := base64ToArrayBuffer (slice_from 24 encryptedData) in
  decryptedData <- decrypt_AES_CBC key iv encryptedDataBuffer ;;
  Some (Text.decode decryptedData).

End WithSubtle.
End Crypto.

(* ================================================================== *)
(** ** [src/config.ts] and the HTTP effects *)
(* ================================================================== *)

(** The ports of [config.ts], which the handlers only add to and print:
    they are parameters of the development. *)
Class Config := {
  REGISTRY_PORT : Z;
  BASE_ONION_ROUTER_PORT : Z;
  BASE_USER_PORT : Z
}.

Module Http.
Import JS.

(** How the promise of a [fetch] settles: it resolves once the callee
    has answered, whatever the status of the answer, and it rejects when
    no answer comes (nobody listens on the port, or the port is none). *)
Inductive settled := Resolved (status : N) | Rejected.

(** What a handler does to the outside, in program order.
    [Fetch port message result] is an awaited
    [fetch(`http://localhost:${port}/message`, {method: "POST", body:
    JSON.stringify({message})})], recorded when its promise settles;
    [Send body] is [res.send(body)]. *)
Inductive event :=
| Fetch (port : option number) (message : option jsstring) (result : settled)
| Send (body : jsstring).

(** How the run of an [async] handler ends: it returns, it throws (the
    promise of the handler rejects and the statements after the throw are
    not run), or it never leaves a loop. *)
Inductive completion := Returned | Threw | Diverged.

(** The network as a handler sees it: how the promise of each [fetch]
    settles. *)
Definition network := option number -> option jsstring -> settled.

(** The end of the two handlers that forward: [await fetch(...)] and then
    [res.send("success")].  The status of the answer is not looked at; a
    rejected promise throws at the [await], before the response. *)
Definition after_fetch (result : settled) : list event * completion :=
  match result with
  | Resolved _ => ([Send (lit "success")], Returned)
  | Rejected => ([], Threw)
  end.

(** What the caller of a handler receives: the body of the response, if
    one is sent. *)
Definition response (events : list event) : option jsstring :=
  List.fold_right
    (fun e later => match e with Send body => Some body | Fetch _ _ _ => later end)
    None events.

End Http.

(* ================================================================== *)
(** ** [src/registry/registry.ts] *)
(* ================================================================== *)

Module Registry.
Import JS.

Record Node := { nodeId : Z; pubKey : jsstring }.

Definition RegisterNodeBody := Node.

Record GetNodeRegistryBody := { nodes : list Node }.

(** The variables of [launchRegistry] that its handlers close over. *)
Record state := {
  getNodeRegistryBody : GetNodeRegistryBody;
  lastReceivedEncryptedMessage : option jsstring
}.

Definition launchRegistry : state :=
  {| getNodeRegistryBody := {| nodes := [] |};
     lastReceivedEncryptedMessage := None |}.

Inductive request :=
| POST_registerNode (body : RegisterNodeBody)
| GET_getNodeRegistry
| GET_status
| GET_getLastReceivedEncryptedMessage.

Inductive response :=
| json_result (result : jsstring)
| json_nodes (body : GetNodeRegistryBody)
| send (text : jsstring)
| json_message (result : option jsstring).

(** [getNodeRegistryBody.nodes.push({ nodeId, pubKey })] *)
Definition push (body : GetNodeRegistryBody) (n : Node) : GetNodeRegistryBody :=
  {| nodes := nodes body ++ [n] |}.

Definition handle (st : state) (req : request) : state * response :=
  match req with
  | POST_registerNode body =>
      ({| getNodeRegistryBody :=
            push (getNodeRegistryBody st)
                 {| nodeId := nodeId body; pubKey := pubKey body |};
          lastReceivedEncryptedMessage := lastReceivedEncryptedMessage st |},
       json_result (lit "success"))
  | GET_getNodeRegistry => (st, json_nodes (getNodeRegistryBody st))
  | GET_status => (st, send (lit "live"))
  | GET_getLastReceivedEncryptedMessage =>
      (st, json_message (lastReceivedEncryptedMessage st))
  end.

(** The registry after a sequence of requests, and its responses. *)
Fixpoint run (st : state) (reqs : list request) : state * list response :=
  match reqs with
  | [] => (st, [])
  | req :: rest =>
      let (st', r) := handle st req in
      let (st'', rs) := run st' rest in
      (st'', r :: rs)
  end.

(** The entries that a sequence of requests registers, in order. *)
Fixpoint registered (reqs : list request) : list Node :=
  match reqs with
  | [] => []
  | POST_registerNode body :: rest => body :: registered rest
  | _ :: rest => registered rest
  end.

End Registry.

(* ================================================================== *)
(** ** The user ([user], [/sendMessage] and [/message]) *)
(* ================================================================== *)

Module User.
Import JS WebCrypto Crypto Http.
Import Registry(Node, nodeId, pubKey).

(** An element of the [nodes] array that [res.json()] parsed is an object
    allocated by the parser, one per position: [address] is its identity
    and [fields] its content.  Two entries with the same content are two
    objects. *)
Record object := Obj { address : nat; fields : Node }.

(** [nodes[i]]; [None] is [undefined] (index out of range). *)
Definition element (nodes : list Node) (i : N) : option object :=
  option_map (Obj (N.to_nat i)) (nth_error nodes (N.to_nat i)).

(** Equality of [includes] (SameValueZero): objects are equal when they
    are the same object. *)
Definition same_value (x y : option object) : bool :=
  match x, y with
  | None, None => true
  | Some a, Some b => Nat.eqb (address a) (address b)
  | _, _ => false
  end.

Definition includes (circuit : list (option object)) (x : option object) : bool :=
  existsb (same_value x) circuit.

(** [Math.floor(Math.random() * len)]: [Math.random()] is the double
    [bits mod 2^53 / 2^53] of [0, 1), for the 53 random bits it draws.
    The product is taken exactly; the rounding of the double product
    changes neither the range [0, len) of the result nor that every index
    of the range is the result for some draw. *)
Definition randomIndex (bits len : N) : N :=
  ((bits mod 2 ^ 53) * len / 2 ^ 53)%N.

(** The random values a run of [/sendMessage] draws: [Math_random k] for
    the [k]-th call of [Math.random()], and for iteration [i] of the
    encryption loop the seed of the symmetric key, the source of the
    bytes of the initialisation vector and the seed of the OAEP padding. *)
Record randomness := {
  Math_random : nat -> N;
  key_seed : nat -> bytes;
  iv : nat -> nat -> byte;
  oaep_seed : nat -> bytes
}.

(** The selection loop
    [while (circuit.length < 3) { ... if (!circuit.includes(nodes[randomIndex])) circuit.push(nodes[randomIndex]) }]
    from its [k]-th iteration on; [None] when [fuel] iterations did not
    leave the loop. *)
Fixpoint select (fuel : nat) (random : nat -> N) (k : nat)
    (nodes : list Node) (circuit : list (option object))
  : option (list (option object)) :=
  if List.length circuit <? 3 then
    match fuel with
    | O => None
    | S fuel' =>
        let randomIndex := randomIndex (random k) (N.of_nat (List.length nodes)) in
        if negb (includes circuit (element nodes randomIndex))
        then select fuel' random (S k) nodes (circuit ++ [element nodes randomIndex])
        else select fuel' random (S k) nodes circuit
    end
  else Some circuit.

Section WithConfig.
Context {subtle : Subtle} {config : Config}.

(** [`${port}`.padStart(10, "0")] *)
Definition address_string (port : Z) : jsstring := padStart 10 (toString port).

(** The encryption loop [for (let i = 0; i < circuit.length; i++)] from
    iteration [i] on, over the rest of the circuit; it returns the final
    [messageToSend], and [None] when an iteration throws. *)
Fixpoint wrap (rnd : randomness) (i : nat) (circuit : list (option object))
    (destination messageToSend : jsstring) : option jsstring :=
  match circuit with
  | [] => Some messageToSend
  | circuit_i :: rest =>
      let symKey := createRandomSymmetricKey (key_seed rnd i) in
      let messageToEncrypt := destination ++ messageToSend in
      node <- circuit_i ;;
      let destination :=
        address_string (BASE_ONION_ROUTER_PORT + nodeId (fields node)) in
      encryptedMessage <- symEncrypt (iv rnd i) symKey messageToEncrypt ;;
      encryptedSymKey <-
        rsaEncrypt (oaep_seed rnd i) (exportSymKey symKey) (pubKey (fields node)) ;;
      wrap rnd (S i) rest destination (encryptedSymKey ++ encryptedMessage)
  end.

(** The variables of [user] that its handlers close over. *)
Record state := {
  userId : Z;
  lastReceivedMessages : Z -> option jsstring;
  lastSentMessage : option jsstring;
  lastCircuit : list (option object)
}.

Definition launch (userId : Z) : state :=
  {| userId := userId;
     lastReceivedMessages := fun _ => None;
     lastSentMessage := None;
     lastCircuit := [] |}.

Record outcome := {
  final : state;
  events : list event;
  completion_of : completion
}.

(** [POST /message] *)
Definition message (st : state) (message : jsstring) : outcome :=
  {| final :=
       {| userId := userId st;
          lastReceivedMessages :=
            (fun k => if Z.eqb k (userId st) then Some message
                      else lastReceivedMessages st k);
          lastSentMessage := lastSentMessage st;
          lastCircuit := lastCircuit st |};
     events := [Send (lit "success")];
     completion_of := Returned |}.

(** [GET /getLastReceivedMessage] and [GET /getLastSentMessage] *)
Definition getLastReceivedMessage (st : state) : option jsstring :=
  lastReceivedMessages st (userId st).

Definition getLastSentMessage (st : state) : option jsstring :=
  lastSentMessage st.

(** [GET /getLastCircuit]: [lastCircuit.map((node) => node.nodeId)] *)
Definition getLastCircuit (st : state) : option (list Z) :=
  List.fold_right
    (fun x acc => node <- x ;; ids <- acc ;; Some (nodeId (fields node) :: ids))
    (Some []) (lastCircuit st).

(** [POST /sendMessage], on the listing [nodes] that the registry
    answered, with at most [fuel] iterations of the selection loop. *)
Definition sendMessage (fuel : nat) (rnd : randomness) (net : network)
    (st : state) (message : jsstring) (destinationUserId : Z)
    (nodes : list Node) : outcome :=
  match select fuel (Math_random rnd) 0 nodes [] with
  | None => {| final := st; events := []; completion_of := Diverged |}
  | Some circuit =>
      let st1 :=
        {| userId := userId st;
           lastReceivedMessages := lastReceivedMessages st;
           lastSentMessage := Some message;
           lastCircuit := lastCircuit st |} in
      let destination := address_string (BASE_USER_PORT + destinationUserId) in
      match wrap rnd 0 circuit destination message with
      | None => {| final := st1; events := []; completion_of := Threw |}
      | Some messageToSend =>
          let circuit := rev circuit in
          match circuit with
          | Some entryNode :: _ =>
              let st2 :=
                {| userId := userId st;
                   lastReceivedMessages := lastReceivedMessages st;
                   lastSentMessage := Some message;
                   lastCircuit := circuit |} in
              let port := Some (Num (BASE_ONION_ROUTER_PORT + nodeId (fields entryNode))) in
              let result := net port (Some messageToSend) in
              {| final := st2;
                 events := Fetch port (Some messageToSend) result
                           :: fst (after_fetch result);
                 completion_of := snd (after_fetch result) |}
          | _ => {| final := st1; events := []; completion_of := Threw |}
          end
      end
  end.

End WithConfig.
End User.

(* ================================================================== *)
(** ** The onion router ([simpleOnionRouter], [/message]) *)
(* ================================================================== *)

Module OnionRouter.
Import JS WebCrypto Crypto Http.

Section WithConfig.
Context {subtle : Subtle} {config : Config}.

(** The variables of [simpleOnionRouter] that its handlers close over. *)
Record state := {
  nodeId : Z;
  privateKey : option jsstring;
  lastMessageSource : option Z;
  lastMessageDestination : option number;
  lastReceivedEncryptedMessage : option jsstring;
  lastReceivedDecryptedMessage : option jsstring
}.

(** [simpleOnionRouter(nodeId)] up to its registration: the key pair is
    generated from [seed], and the router posts its identifier and its
    exported public key to the registry. *)
Definition simpleOnionRouter (nodeId : Z) (seed : bytes)
  : state * Registry.request :=
  let keyPair := generateRsaKeyPair seed in
  let publicKey := exportPubKey (fst keyPair) in
  let privateKey := exportPrvKey (Some (snd keyPair)) in
  ({| nodeId := nodeId;
      privateKey := privateKey;
      lastMessageSource := None;
      lastMessageDestination := None;
      lastReceivedEncryptedMessage := None;
      lastReceivedDecryptedMessage := None |},
   Registry.POST_registerNode {| Registry.nodeId := nodeId; Registry.pubKey := publicKey |}).

(** The router state [st] holds the private key of the pair generated
    from [seed], as the state that [simpleOnionRouter] starts from does. *)
Definition holds_key (st : state) (seed : bytes) : Prop :=
  privateKey st = exportPrvKey (Some (snd (generateRsaKeyPair seed))).

(** The directory entry [node] carries the public key of the pair
    generated from [seed], as the entry that [simpleOnionRouter] registers
    does. *)
Definition carries_key (node : Registry.Node) (seed : bytes) : Prop :=
  Registry.pubKey node = exportPubKey (fst (generateRsaKeyPair seed)).

(** Truthiness of a [string | null]: [null] and the empty string are
    falsy. *)
Definition truthy (s : option jsstring) : bool :=
  match s with
  | Some (_ :: _) => true
  | _ => false
  end.

Record outcome := {
  final : state;
  events : list event;
  completion_of : completion
}.

(** The two decryptions of [/message]: [None] when one of them throws,
    otherwise the value of [message] (a string or [null]). *)
Definition decrypt_layer (st : state) (layer : jsstring)
  : option (option jsstring) :=
  let encryptedSymKey := slice_to 344 layer in
  symKey <-
    (if truthy (privateKey st) then
       privateKey <- privateKey st ;;
       key <- importPrvKey privateKey ;;
       symKey <- rsaDecrypt encryptedSymKey key ;;
       Some (Some symKey)
     else Some None) ;;
  let encryptedMessage := slice_from 344 layer in
  if truthy symKey then
    symKey <- symKey ;;
    message <- symDecrypt symKey encryptedMessage ;;
    Some (Some message)
  else Some None.

(** [POST /message] with [req.body.message = layer]. *)
Definition message (net : network) (st : state) (layer : jsstring) : outcome :=
  match decrypt_layer st layer with
  | None => {| final := st; events := []; completion_of := Threw |}
  | Some message =>
      let decrypted :=
        match message with
        | Some m => if truthy message then Some (slice_from 10 m) else None
        | None => None
        end in
      let destination :=
        match message with
        | Some m => if truthy message then Some (parseInt (slice_to 10 m)) else None
        | None => None
        end in
      let st' :=
        {| nodeId := nodeId st;
           privateKey := privateKey st;
           lastMessageSource := Some (nodeId st);
           lastMessageDestination := destination;
           lastReceivedEncryptedMessage := Some layer;
           lastReceivedDecryptedMessage := decrypted |} in
      let result := net destination decrypted in
      {| final := st';
         events := Fetch destination decrypted result :: fst (after_fetch result);
         completion_of := snd (after_fetch result) |}
  end.

(** The introspection routes. *)
Definition getLastReceivedEncryptedMessage (st : state) := lastReceivedEncryptedMessage st.
Definition getLastReceivedDecryptedMessage (st : state) := lastReceivedDecryptedMessage st.
Definition getLastMessageDestination (st : state) := lastMessageDestination st.
Definition getPrivateKey (st : state) := privateKey st.

End WithConfig.
End OnionRouter.

(* ================================================================== *)
(** ** The other routes of the router and of the user *)
(* ================================================================== *)

(** What a handler answers its caller. *)
Module Reply.
Import JS.

Inductive reply :=
| send (body : jsstring)
| json_string (result : option jsstring)
| json_number (result : option number)
| json_numbers (result : list Z)
| none.

(** The answer of a handler that forwards, read off its events: the body
    of [res.send], and nothing when the handler threw or diverged before
    it. *)
Definition of_events (events : list Http.event) : reply :=
  match Http.response events with
  | Some body => send body
  | None => none
  end.

End Reply.

Module RouterRoutes.
Import JS WebCrypto Crypto Http Reply.

Section WithConfig.
Context {subtle : Subtle} {config : Config}.

(** [POST /sendMessage] of the router: it fetches the listing [nodes],
    runs the same selection loop as the user, drops the circuit and
    answers [res.sendStatus(200)], whose body is the text ["OK"]. *)
Definition sendMessage (fuel : nat) (random : nat -> N)
    (nodes : list Registry.Node) (st : OnionRouter.state) : OnionRouter.outcome :=
  match User.select fuel random 0 nodes [] with
  | None =>
      {| OnionRouter.final := st; OnionRouter.events := [];
         OnionRouter.completion_of := Diverged |}
  | Some circuit =>
      {| OnionRouter.final := st; OnionRouter.events := [Send (lit "OK")];
         OnionRouter.completion_of := Returned |}
  end.

(** A request to the router, with what the run of its handler draws from
    outside: for [/sendMessage] the listing that the awaited [axios.get]
    of [/getNodeRegistry] gives ([None] when its promise rejects, and the
    handler throws before the loop), the random draws and the bound on
    the iterations; for [/message] the network. *)
Inductive request :=
| GET_status
| GET_getLastReceivedEncryptedMessage
| GET_getLastReceivedDecryptedMessage
| GET_getLastMessageDestination
| GET_getPrivateKey
| POST_sendMessage (listing : option (list Registry.Node)) (random : nat -> N)
    (fuel : nat)
| POST_message (layer : jsstring) (net : network).

Definition handle (st : OnionRouter.state) (req : request)
  : OnionRouter.state * reply :=
  match req with
  | GET_status => (st, send (lit "live"))
  | GET_getLastReceivedEncryptedMessage =>
      (st, json_string (OnionRouter.lastReceivedEncryptedMessage st))
  | GET_getLastReceivedDecryptedMessage =>
      (st, json_string (OnionRouter.lastReceivedDecryptedMessage st))
  | GET_getLastMessageDestination =>
      (st, json_number (OnionRouter.lastMessageDestination st))
  | GET_getPrivateKey => (st, json_string (OnionRouter.privateKey st))
  | POST_sendMessage None random fuel => (st, none)
  | POST_sendMessage (Some nodes) random fuel =>
      let run := sendMessage fuel random nodes st in
      (OnionRouter.final run, of_events (OnionRouter.events run))
  | POST_message layer net =>
      let run := OnionRouter.message net st layer in
      (OnionRouter.final run, of_events (OnionRouter.events run))
  end.

(** The router after a sequence of requests, and its answers. *)
Fixpoint run (st : OnionRouter.state) (reqs : list request)
  : OnionRouter.state * list reply :=
  match reqs with
  | [] => (st, [])
  | req :: rest =>
      let (st', r) := handle st req in
      let (st'', rs) := run st' rest in
      (st'', r :: rs)
  end.

End WithConfig.
End RouterRoutes.

Module UserRoutes.
Import JS WebCrypto Crypto Http Reply.

Section WithConfig.
Context {subtle : Subtle} {config : Config}.

(** [POST /sendMessage] from its first statement.  [listing] is what the
    awaited [fetch] of [/getNodeRegistry], [res.json()] and [body.nodes]
    give the handler: the [nodes] of the registry, and [None] when the
    promise rejects (the registry cannot be reached, or what it answers
    is no JSON); the handler then throws before the selection loop. *)
Definition sendMessage (fuel : nat) (rnd : User.randomness) (net : network)
    (st : User.state) (message : jsstring) (destinationUserId : Z)
    (listing : option (list Registry.Node)) : User.outcome :=
  match listing with
  | None =>
      {| User.final := st; User.events := []; User.completion_of := Threw |}
  | Some nodes => User.sendMessage fuel rnd net st message destinationUserId nodes
  end.

Inductive request :=
| GET_status
| GET_getLastSentMessage
| GET_getLastReceivedMessage
| GET_getLastCircuit
| POST_message (message : jsstring)
| POST_sendMessage (message : jsstring) (destinationUserId : Z)
    (listing : option (list Registry.Node)) (rnd : User.randomness) (fuel : nat)
    (net : network).

Definition handle (st : User.state) (req : request) : User.state * reply :=
  match req with
  | GET_status => (st, send (lit "live"))
  | GET_getLastSentMessage => (st, json_string (User.getLastSentMessage st))
  | GET_getLastReceivedMessage => (st, json_string (User.getLastReceivedMessage st))
  | GET_getLastCircuit =>
      (st, match User.getLastCircuit st with
           | Some ids => json_numbers ids
           | None => none
           end)
  | POST_message message =>
      let run := User.message st message in
      (User.final run, of_events (User.events run))
  | POST_sendMessage message destinationUserId listing rnd fuel net =>
      let run := sendMessage fuel rnd net st message destinationUserId listing in
      (User.final run, of_events (User.events run))
  end.

(** The user after a sequence of requests, and its answers. *)
Fixpoint run (st : User.state) (reqs : list request) : User.state * list reply :=
  match reqs with
  | [] => (st, [])
  | req :: rest =>
      let (st', r) := handle st req in
      let (st'', rs) := run st' rest in
      (st'', r :: rs)
  end.

(** The message of the last [POST /message] of a sequence of requests,
    and [inbox] when there is none. *)
Fixpoint last_message (inbox : option jsstring) (reqs : list request)
  : option jsstring :=
  match reqs with
  | [] => inbox
  | POST_message message :: rest => last_message (Some message) rest
  | _ :: rest => last_message inbox rest
  end.

End WithConfig.
End UserRoutes.

(* ================================================================== *)
(** ** A network of routers *)
(* ================================================================== *)

(** The routers that [simpleOnionRouter] starts, one for each pair of an
    identifier and of the seed of its key pair, and the registry that
    their registrations fill. *)
Module Network.
Import JS WebCrypto Crypto.

Section WithConfig.
Context {subtle : Subtle} {config : Config}.

Definition router (r : Z * bytes) : OnionRouter.state :=
  fst (OnionRouter.simpleOnionRouter (fst r) (snd r)).

Definition registration (r : Z * bytes) : Registry.request :=
  snd (OnionRouter.simpleOnionRouter (fst r) (snd r)).

(** The registry once the routers have registered, in the order of the
    list. *)
Definition registry (routers : list (Z * bytes)) : Registry.state :=
  fst (Registry.run Registry.launchRegistry (List.map registration routers)).

(** The [nodes] that [/getNodeRegistry] then answers. *)
Definition listing (routers : list (Z * bytes)) : list Registry.Node :=
  Registry.nodes (Registry.getNodeRegistryBody (registry routers)).


End WithConfig.
End Network.
Example toString_4001 : JS.toString 4001 = JS.lit "4001".
Proof. reflexivity. Qed.

Example parseInt_padded :
  JS.parseInt (JS.padStart 10 (JS.toString 4001)) = JS.Num 4001.
Proof. reflexivity. Qed.

Example parseInt_minus :
  JS.parseInt (JS.padStart 10 (JS.toString (-2000))) = JS.Num 0.
Proof. reflexivity. Qed.

Example base64_hello :
  Buffer.toString_base64 (list_byte_of_string "hello") = JS.lit "aGVsbG8=".
Proof. reflexivity. Qed.

Example base64_hello_back :
  Buffer.from_base64 (JS.lit "aGVsbG8=") = list_byte_of_string "hello".
Proof. reflexivity. Qed.

(** A code unit above U+00FF is decoded by its low byte: U+0141 as [A],
    and U+D83D as the [=] at which the decoding stops. *)
Example base64_low_byte :
  Buffer.from_base64 (List.repeat (JS.unit_of 321) 4) = [x00; x00; x00]
  /\ Buffer.from_base64 (JS.lit "aGVs" ++ JS.unit_of 55357 :: JS.lit "bG8=")
     = list_byte_of_string "hel".
Proof. split; reflexivity. Qed.

Example encode_lone_surrogate :
  Text.encode [JS.unit_of 55296] = [xef; xbf; xbd].
Proof. reflexivity. Qed.

Example decode_pair :
  Text.decode (Text.encode [JS.unit_of 55357; JS.unit_of 56832])
  = [JS.unit_of 55357; JS.unit_of 56832].
Proof. reflexivity. Qed.

(** A port of eleven digits is printed with its eleven characters, and
    the first ten of them are read back as another number. *)
Example eleven_digits :
  JS.padStart 10 (JS.toString 10000000000) = JS.lit "10000000000"
  /\ JS.parseInt (JS.slice_to 10 (JS.padStart 10 (JS.toString 10000000000) ++ JS.lit "hello"))
     = JS.Num 1000000000
  /\ JS.slice_from 10 (JS.padStart 10 (JS.toString 10000000000) ++ JS.lit "hello")
     = JS.lit "0hello".
Proof. repeat split. Qed.

Example decode_byte_order_mark :
  Text.decode (Text.encode (JS.unit_of 65279 :: JS.lit "hi")) = JS.lit "hi".
Proof. reflexivity. Qed.

(* ================================================================== *)
(** ** Facts about the platform values *)
(* ================================================================== *)

Module JSFacts.
Import JS.
Local Open Scope N_scope.

Lemma to_N_byte_of_N (n : N) : Byte.to_N (byte_of_N n) = n mod 256.
Proof.
  unfold byte_of_N.
  destruct (Byte.of_N (n mod 256)) as [b|] eqn:E.
  - now apply Byte.to_of_N.
  - apply Byte.of_N_None_iff in E.
    pose proof (N.mod_upper_bound n 256). lia.
Qed.

Lemma byte_of_N_to_N (b : byte) : byte_of_N (Byte.to_N b) = b.
Proof.
  unfold byte_of_N.
  pose proof (Byte.to_N_bounded b).
  rewrite N.mod_small by lia.
  now rewrite Byte.of_to_N.
Qed.

Lemma to_N_lt (b : byte) : Byte.to_N b < 256.
Proof. pose proof (Byte.to_N_bounded b). lia. Qed.

Lemma code_lt (c : code_unit) : code c < 65536.
Proof.
  unfold code.
  pose proof (to_N_lt (cu_hi c)). pose proof (to_N_lt (cu_lo c)). lia.
Qed.

Lemma code_unit_of (n : N) : n < 65536 -> code (unit_of n) = n.
Proof.
  intros Hn. unfold code, unit_of. cbn [cu_hi cu_lo].
  rewrite !to_N_byte_of_N.
  rewrite (N.mod_small (n / 256)).
  - symmetry. apply N.div_mod. lia.
  - apply N.Div0.div_lt_upper_bound. lia.
Qed.

Lemma unit_of_code (c : code_unit) : unit_of (code c) = c.
Proof.
  destruct c as [h l]. unfold unit_of, code. cbn [cu_hi cu_lo].
  pose proof (to_N_lt h). pose proof (to_N_lt l).
  assert (E1 : (256 * Byte.to_N h + Byte.to_N l) / 256 = Byte.to_N h).
  { symmetry. apply (N.div_unique _ 256 _ (Byte.to_N l)); lia. }
  assert (E2 : byte_of_N (256 * Byte.to_N h + Byte.to_N l) = l).
  { unfold byte_of_N.
    replace ((256 * Byte.to_N h + Byte.to_N l) mod 256) with (Byte.to_N l).
    - now rewrite Byte.of_to_N.
    - apply (N.mod_unique _ 256 (Byte.to_N h)); lia. }
  now rewrite E1, E2, byte_of_N_to_N.
Qed.

Lemma code_inj (c d : code_unit) : code c = code d -> c = d.
Proof. intros E. rewrite <- (unit_of_code c), <- (unit_of_code d). now rewrite E. Qed.

Lemma code_unit_eqb_eq (c d : code_unit) : code_unit_eqb c d = true <-> c = d.
Proof.
  destruct c as [h l], d as [h' l']. unfold code_unit_eqb. cbn [cu_hi cu_lo].
  rewrite andb_true_iff. split.
  - intros [A B]. apply Byte.byte_dec_bl in A. apply Byte.byte_dec_bl in B.
    now subst.
  - intros E. injection E as -> ->. split; now apply Byte.byte_dec_lb.
Qed.

Lemma code_unit_eqb_neq (c d : code_unit) : code c <> code d -> code_unit_eqb c d = false.
Proof.
  intros H. destruct (code_unit_eqb c d) eqn:E; [|reflexivity].
  apply code_unit_eqb_eq in E. now subst.
Qed.

(** *** Slices of a concatenation *)

Lemma slice_to_app (n : nat) (s t : jsstring) :
  List.length s = n -> slice_to n (s ++ t) = s.
Proof.
  intros <-. unfold slice_to. induction s as [|c s IH]; cbn.
  - now destruct t.
  - now rewrite IH.
Qed.

Lemma slice_from_app (n : nat) (s t : jsstring) :
  List.length s = n -> slice_from n (s ++ t) = t.
Proof. intros <-. unfold slice_from. induction s as [|c s IH]; [reflexivity|]. exact IH. Qed.

(** *** Printing and parsing decimal numbers *)

Lemma digits_value_app (l : list N) (d : N) :
  digits_value (l ++ [d]) = 10 * digits_value l + d.
Proof. unfold digits_value. now rewrite fold_left_app. Qed.

Lemma decimal_digits_value (fuel : nat) : forall n,
  n < 2 ^ N.of_nat fuel -> digits_value (decimal_digits fuel n) = n.
Proof.
  induction fuel as [|f IH]; intros n Hn.
  - cbn in Hn. assert (n = 0) by lia. now subst.
  - cbn [decimal_digits]. destruct (N.ltb_spec n 10) as [Hs|Hs].
    + unfold digits_value. cbn. lia.
    + rewrite digits_value_app, IH.
      * symmetry. apply N.div_mod. lia.
      * rewrite Nat2N.inj_succ, N.pow_succ_r' in Hn.
        apply N.Div0.div_lt_upper_bound. lia.
Qed.

Lemma decimal_digits_lt (fuel : nat) : forall n,
  Forall (fun d => d < 10) (decimal_digits fuel n).
Proof.
  induction fuel as [|f IH]; intros n; cbn [decimal_digits].
  - constructor.
  - destruct (N.ltb_spec n 10).
    + now repeat constructor.
    + apply Forall_app. split; [apply IH|].
      repeat constructor. apply N.mod_lt. lia.
Qed.

Lemma decimal_digits_length (fuel : nat) : forall (k : nat) n,
  n < 10 ^ N.of_nat k -> (1 <= k)%nat ->
  (List.length (decimal_digits fuel n) <= k)%nat.
Proof.
  induction fuel as [|f IH]; intros k n Hn Hk; cbn [decimal_digits].
  - cbn. lia.
  - destruct (N.ltb_spec n 10) as [Hs|Hs].
    + cbn. lia.
    + destruct k as [|k]; [lia|].
      rewrite Nat2N.inj_succ, N.pow_succ_r' in Hn.
      destruct k as [|k]; [cbn in Hn; lia|].
      rewrite length_app. cbn [List.length].
      assert ((List.length (decimal_digits f (n / 10)) <= S k)%nat).
      { apply IH; [|lia]. apply N.Div0.div_lt_upper_bound. lia. }
      lia.
Qed.

Lemma N_toString_fuel (n : N) : n < 2 ^ N.of_nat (S (N.to_nat (N.log2 n))).
Proof.
  rewrite Nat2N.inj_succ, N2Nat.id.
  destruct (N.eq_dec n 0) as [->|Hn]; [cbn; lia|].
  apply N.log2_spec. lia.
Qed.

Lemma code_digit_unit (d : N) : d < 10 -> code (digit_unit d) = 48 + d.
Proof. intros H. unfold digit_unit. apply code_unit_of. lia. Qed.

Lemma leading_digits_print (ds : list N) :
  Forall (fun d => d < 10) ds -> leading_digits (List.map digit_unit ds) = ds.
Proof.
  induction 1 as [|d ds Hd _ IH]; [reflexivity|].
  cbn [List.map leading_digits]. unfold is_digit.
  rewrite (code_digit_unit d Hd).
  destruct (N.leb_spec 48 (48 + d)); [|lia].
  destruct (N.leb_spec (48 + d) 57); [|lia].
  cbn [andb]. rewrite IH. f_equal. lia.
Qed.

Lemma leading_digits_zeros (k : nat) (s : jsstring) :
  leading_digits (List.repeat (unit_of 48) k ++ s)
  = List.repeat 0 k ++ leading_digits s.
Proof. induction k as [|k IH]; [reflexivity|]. cbn. now rewrite IH. Qed.

Lemma digits_value_zeros (k : nat) (ds : list N) :
  digits_value (List.repeat 0 k ++ ds) = digits_value ds.
Proof. induction k as [|k IH]; [reflexivity|]. exact IH. Qed.

(** A non-negative number below 10^10 prints, padded, as exactly ten
    characters, which [parseInt] reads back. *)
Lemma length_padStart (n : nat) (s : jsstring) :
  (List.length s <= n)%nat -> List.length (padStart n s) = n.
Proof. intros H. unfold padStart. rewrite length_app, repeat_length. lia. Qed.

Lemma length_N_toString (n : N) :
  n < 10 ^ 10 -> (List.length (N_toString n) <= 10)%nat.
Proof.
  intros H. unfold N_toString. rewrite length_map.
  apply decimal_digits_length; [exact H | lia].
Qed.

Lemma decimal_digits_nonempty (fuel : nat) (n : N) :
  decimal_digits (S fuel) n <> [].
Proof.
  cbn [decimal_digits]. destruct (n <? 10); [discriminate|].
  intros E. apply app_eq_nil in E. destruct E. discriminate.
Qed.

Lemma parseInt_padStart_N (n : N) (k : nat) :
  parseInt (padStart k (N_toString n)) = Num (Z.of_N n).
Proof.
  assert (Hd : leading_digits (padStart k (N_toString n))
               = List.repeat 0 (k - List.length (N_toString n))
                   ++ decimal_digits (S (N.to_nat (N.log2 n))) n).
  { unfold padStart. rewrite leading_digits_zeros. f_equal.
    apply leading_digits_print, decimal_digits_lt. }
  assert (Hne : leading_digits (padStart k (N_toString n)) <> []).
  { rewrite Hd. intros E. apply app_eq_nil in E. destruct E as [_ E].
    now apply decimal_digits_nonempty in E. }
  assert (Hv : parse_digits (padStart k (N_toString n)) = Some n).
  { unfold parse_digits. rewrite Hd in *.
    destruct (List.repeat 0 _ ++ _) as [|d ds] eqn:E; [congruence|].
    rewrite <- E, digits_value_zeros.
    f_equal. apply decimal_digits_value, N_toString_fuel. }
  unfold parseInt.
  destruct (padStart k (N_toString n)) as [|c r] eqn:Es.
  { now cbn in Hne. }
  assert (Hc : is_digit c = true).
  { cbn [leading_digits] in Hne. destruct (is_digit c); congruence. }
  unfold is_digit in Hc. apply andb_true_iff in Hc. destruct Hc as [H1 H2].
  apply N.leb_le in H1, H2.
  assert (Hw : is_white_space c = false).
  { unfold is_white_space. cbv zeta.
    repeat match goal with
    | |- context [N.leb ?a ?b] => destruct (N.leb_spec a b); try lia
    | |- context [N.eqb ?a ?b] => destruct (N.eqb_spec a b); try lia
    end; reflexivity. }
  cbn [skip_white_space]. rewrite Hw.
  destruct (N.eqb_spec (code c) 45); [lia|].
  destruct (N.eqb_spec (code c) 43); [lia|].
  now rewrite Hv.
Qed.

Lemma parseInt_address (p : Z) :
  (0 <= p)%Z -> parseInt (padStart 10 (toString p)) = Num p.
Proof.
  intros Hp. unfold toString. destruct p as [|q|q]; [| |lia].
  - apply (parseInt_padStart_N 0).
  - change (Z.to_N (Z.pos q)) with (N.pos q).
    apply (parseInt_padStart_N (N.pos q)).
Qed.

Lemma length_address (p : Z) :
  (0 <= p < 10 ^ 10)%Z -> List.length (padStart 10 (toString p)) = 10%nat.
Proof.
  intros Hp. apply length_padStart.
  unfold toString. destruct p as [|q|q]; [| |lia].
  - apply length_N_toString. cbn. lia.
  - apply length_N_toString. change (Z.to_N (Z.pos q)) with (N.pos q). lia.
Qed.

End JSFacts.

(* ================================================================== *)
(** ** Facts about the codecs *)
(* ================================================================== *)

Module Base64Facts.
Import JS JSFacts Buffer.
Local Open Scope N_scope.

Local Ltac euclid :=
  Z.to_euclidean_division_equations; lia.

Local Ltac arith := zify; euclid.

Lemma bytes_ind3 (P : bytes -> Prop) :
  P [] -> (forall a, P [a]) -> (forall a b, P [a; b]) ->
  (forall a b c r, P r -> P (a :: b :: c :: r)) ->
  forall bs, P bs.
Proof.
  intros H0 H1 H2 H3. fix IH 1.
  intros [|a [|b [|c r]]]; [exact H0 | apply H1 | apply H2 |].
  apply H3, IH.
Qed.

Lemma code_alphabet (v : N) :
  v < 64 ->
  code (alphabet v)
  = if v <? 26 then 65 + v
    else if v <? 52 then 97 + (v - 26)
    else if v <? 62 then 48 + (v - 52)
    else if v =? 62 then 43 else 47.
Proof.
  intros Hv. unfold alphabet.
  destruct (N.ltb_spec v 26); [apply code_unit_of; lia|].
  destruct (N.ltb_spec v 52); [apply code_unit_of; lia|].
  destruct (N.ltb_spec v 62); [apply code_unit_of; lia|].
  destruct (N.eqb_spec v 62); apply code_unit_of; lia.
Qed.

(** A character of the alphabet is read as itself. *)
Lemma low_byte_alphabet (v : N) : v < 64 -> low_byte (alphabet v) = code (alphabet v).
Proof.
  intros Hv. pose proof (code_alphabet v Hv) as Hc.
  assert (Hsmall : code (alphabet v) < 256).
  { rewrite Hc.
    destruct (N.ltb_spec v 26); [lia|].
    destruct (N.ltb_spec v 52); [lia|].
    destruct (N.ltb_spec v 62); [lia|].
    destruct (N.eqb_spec v 62); lia. }
  clear Hc. unfold low_byte. unfold code in *.
  pose proof (to_N_lt (cu_hi (alphabet v))). pose proof (to_N_lt (cu_lo (alphabet v))).
  lia.
Qed.

Lemma unbase64_alphabet (v : N) : v < 64 -> unbase64 (alphabet v) = Some v.
Proof.
  intros Hv. unfold unbase64. cbv zeta.
  rewrite (low_byte_alphabet v Hv), (code_alphabet v Hv).
  destruct (N.ltb_spec v 26);
    [|destruct (N.ltb_spec v 52);
      [|destruct (N.ltb_spec v 62); [|destruct (N.eqb_spec v 62)]]];
  repeat match goal with
  | |- context [N.leb ?a ?b] => destruct (N.leb_spec a b); try lia
  | |- context [N.eqb ?a ?b] => destruct (N.eqb_spec a b); try lia
  end; cbn [andb orb]; f_equal; lia.
Qed.

Lemma alphabet_not_pad (v : N) : v < 64 -> (low_byte (alphabet v) =? 61) = false.
Proof.
  intros Hv. apply N.eqb_neq.
  rewrite (low_byte_alphabet v Hv), (code_alphabet v Hv).
  destruct (N.ltb_spec v 26); [lia|].
  destruct (N.ltb_spec v 52); [lia|].
  destruct (N.ltb_spec v 62); [lia|].
  destruct (N.eqb_spec v 62); lia.
Qed.

Lemma sextets_alphabet (v : N) (s : jsstring) :
  v < 64 -> sextets (alphabet v :: s) = v :: sextets s.
Proof.
  intros Hv. cbn [sextets].
  now rewrite (alphabet_not_pad v Hv), (unbase64_alphabet v Hv).
Qed.

Lemma sextets_pad (s : jsstring) : sextets (pad :: s) = [].
Proof. reflexivity. Qed.

(** [Buffer.from(Buffer.from(bs).toString("base64"), "base64")] is [bs]. *)
Lemma from_base64_toString (bs : bytes) : from_base64 (toString_base64 bs) = bs.
Proof.
  unfold from_base64. induction bs as [|a|a b|a b c r IH] using bytes_ind3.
  - reflexivity.
  - cbn [toString_base64]. cbv zeta.
    pose proof (to_N_lt a).
    rewrite !sextets_alphabet, sextets_pad by arith.
    cbn [bytes_of_sextets]. f_equal.
    rewrite <- (byte_of_N_to_N a) at 3. f_equal. arith.
  - cbn [toString_base64]. cbv zeta.
    pose proof (to_N_lt a). pose proof (to_N_lt b).
    rewrite !sextets_alphabet, sextets_pad by arith.
    cbn [bytes_of_sextets]. f_equal; [|f_equal].
    + rewrite <- (byte_of_N_to_N a) at 3. f_equal. arith.
    + rewrite <- (byte_of_N_to_N b) at 3. f_equal. arith.
  - cbn [toString_base64]. cbv zeta.
    pose proof (to_N_lt a). pose proof (to_N_lt b). pose proof (to_N_lt c).
    rewrite !sextets_alphabet by arith.
    cbn [bytes_of_sextets]. rewrite IH. f_equal; [|f_equal; [|f_equal]].
    + rewrite <- (byte_of_N_to_N a) at 3. f_equal. arith.
    + rewrite <- (byte_of_N_to_N b) at 3. f_equal. arith.
    + rewrite <- (byte_of_N_to_N c) at 3. f_equal. arith.
Qed.


(** Every three bytes, and a last incomplete group, give four characters. *)
Lemma length_toString_base64 (bs : bytes) :
  List.length (toString_base64 bs) = (4 * ((List.length bs + 2) / 3))%nat.
Proof.
  induction bs as [|a|a b|a b c r IH] using bytes_ind3; try reflexivity.
  cbn [toString_base64 List.length]. rewrite IH.
  replace (S (S (S (List.length r))) + 2)%nat
    with ((List.length r + 2) + 1 * 3)%nat by lia.
  rewrite Nat.div_add by lia. lia.
Qed.

Lemma length_base64_16 (bs : bytes) :
  List.length bs = 16%nat -> List.length (toString_base64 bs) = 24%nat.
Proof. intros H. now rewrite length_toString_base64, H. Qed.

Lemma length_base64_256 (bs : bytes) :
  List.length bs = 256%nat -> List.length (toString_base64 bs) = 344%nat.
Proof. intros H. now rewrite length_toString_base64, H. Qed.

End Base64Facts.

Module TextFacts.
Import JS JSFacts Text.
Local Open Scope N_scope.

Local Ltac arith := zify; Z.to_euclidean_division_equations; lia.

(** Scalar values: code points that are not surrogates. *)
Definition scalar (cp : N) : Prop :=
  cp < 1114112 /\ ~ (55296 <= cp <= 57343).

Lemma surrogate_tests (v : N) :
  (is_high_surrogate v = true <-> 55296 <= v <= 56319)
  /\ (is_low_surrogate v = true <-> 56320 <= v <= 57343).
Proof.
  unfold is_high_surrogate, is_low_surrogate.
  rewrite !andb_true_iff, !N.leb_le. tauto.
Qed.

Lemma is_high_false (v : N) : is_high_surrogate v = false <-> ~ (55296 <= v <= 56319).
Proof.
  rewrite <- (proj1 (surrogate_tests v)). destruct (is_high_surrogate v); split; congruence.
Qed.

Lemma is_low_false (v : N) : is_low_surrogate v = false <-> ~ (56320 <= v <= 57343).
Proof.
  rewrite <- (proj2 (surrogate_tests v)). destruct (is_low_surrogate v); split; congruence.
Qed.

(** *** The decoder reads back what the encoder writes *)

Lemma utf8_decode_start (b : byte) (r : bytes) :
  utf8_decode decoder_start (b :: r)
  = fst (lead_byte (Byte.to_N b)) ++ utf8_decode (snd (lead_byte (Byte.to_N b))) r.
Proof. reflexivity. Qed.

Lemma utf8_decode_last (cp lower upper : N) (b : byte) (r : bytes) :
  lower <= Byte.to_N b <= upper ->
  utf8_decode (Decoder cp 1 lower upper) (b :: r)
  = (cp * 64 + Byte.to_N b mod 64) :: utf8_decode decoder_start r.
Proof.
  intros [H1 H2]. cbn [utf8_decode utf8_bytes_needed utf8_lower utf8_upper utf8_code_point].
  change (1 =? 0) with false. change (1 =? 1) with true. cbv iota.
  apply N.leb_le in H1, H2. now rewrite H1, H2.
Qed.

Lemma utf8_decode_more (cp needed lower upper : N) (b : byte) (r : bytes) :
  2 <= needed ->
  lower <= Byte.to_N b <= upper ->
  utf8_decode (Decoder cp needed lower upper) (b :: r)
  = utf8_decode (Decoder (cp * 64 + Byte.to_N b mod 64) (needed - 1) 128 191) r.
Proof.
  intros Hn [H1 H2].
  cbn [utf8_decode utf8_bytes_needed utf8_lower utf8_upper utf8_code_point].
  destruct (N.eqb_spec needed 0); [lia|].
  destruct (N.eqb_spec needed 1); [lia|].
  apply N.leb_le in H1, H2. now rewrite H1, H2.
Qed.

Lemma lead_byte_1 (v : N) : v <= 127 -> lead_byte v = ([v], decoder_start).
Proof. intros H. unfold lead_byte. apply N.leb_le in H. now rewrite H. Qed.

Lemma lead_byte_2 (v : N) :
  194 <= v <= 223 -> lead_byte v = ([], Decoder (v mod 32) 1 128 191).
Proof.
  intros H. unfold lead_byte.
  destruct (N.leb_spec v 127); [lia|].
  destruct (N.leb_spec 194 v); [|lia].
  destruct (N.leb_spec v 223); [|lia]. reflexivity.
Qed.

Lemma lead_byte_3 (v : N) :
  224 <= v <= 239 ->
  lead_byte v = ([], Decoder (v mod 16) 2 (if v =? 224 then 160 else 128)
                                          (if v =? 237 then 159 else 191)).
Proof.
  intros H. unfold lead_byte.
  destruct (N.leb_spec v 127); [lia|].
  destruct (N.leb_spec 194 v); [|lia].
  destruct (N.leb_spec v 223); [lia|].
  destruct (N.leb_spec 224 v); [|lia].
  destruct (N.leb_spec v 239); [|lia]. reflexivity.
Qed.

Lemma lead_byte_4 (v : N) :
  240 <= v <= 244 ->
  lead_byte v = ([], Decoder (v mod 8) 3 (if v =? 240 then 144 else 128)
                                         (if v =? 244 then 143 else 191)).
Proof.
  intros H. unfold lead_byte.
  destruct (N.leb_spec v 127); [lia|].
  destruct (N.leb_spec 194 v); [|lia].
  destruct (N.leb_spec v 223); [lia|].
  destruct (N.leb_spec 224 v); [|lia].
  destruct (N.leb_spec v 239); [lia|].
  destruct (N.leb_spec 240 v); [|lia].
  destruct (N.leb_spec v 244); [|lia]. reflexivity.
Qed.

Lemma to_N_byte_small (n : N) : n < 256 -> Byte.to_N (byte_of_N n) = n.
Proof. intros H. rewrite to_N_byte_of_N. now apply N.mod_small. Qed.

Lemma utf8_decode_encode_code_point (cp : N) (r : bytes) :
  scalar cp ->
  utf8_decode decoder_start (utf8_encode_code_point cp ++ r)
  = cp :: utf8_decode decoder_start r.
Proof.
  intros [Hmax Hsur]. unfold utf8_encode_code_point.
  destruct (N.ltb_spec cp 128) as [H1|H1];
    [|destruct (N.ltb_spec cp 2048) as [H2|H2];
      [|destruct (N.ltb_spec cp 65536) as [H3|H3]]];
    cbn [app]; rewrite utf8_decode_start.
  - rewrite to_N_byte_small by lia. rewrite lead_byte_1 by lia. reflexivity.
  - rewrite to_N_byte_small by arith. rewrite lead_byte_2 by arith.
    cbn [fst snd app]. rewrite utf8_decode_last.
    + rewrite to_N_byte_small by arith. f_equal. arith.
    + rewrite to_N_byte_small by arith. arith.
  - rewrite to_N_byte_small by arith. rewrite lead_byte_3 by arith.
    cbn [fst snd app].
    assert (Hb2 : Byte.to_N (byte_of_N (128 + (cp / 64) mod 64)) = 128 + (cp / 64) mod 64)
      by (apply to_N_byte_small; arith).
    assert (Hb3 : Byte.to_N (byte_of_N (128 + cp mod 64)) = 128 + cp mod 64)
      by (apply to_N_byte_small; arith).
    rewrite utf8_decode_more; [|lia|].
    + change (2 - 1) with 1. rewrite utf8_decode_last by (rewrite Hb3; arith).
      rewrite Hb2, Hb3. f_equal. arith.
    + rewrite Hb2.
      destruct (N.eqb_spec (224 + cp / 4096) 224);
        destruct (N.eqb_spec (224 + cp / 4096) 237); arith.
  - rewrite to_N_byte_small by arith. rewrite lead_byte_4 by arith.
    cbn [fst snd app].
    assert (Hb2 : Byte.to_N (byte_of_N (128 + (cp / 4096) mod 64)) = 128 + (cp / 4096) mod 64)
      by (apply to_N_byte_small; arith).
    assert (Hb3 : Byte.to_N (byte_of_N (128 + (cp / 64) mod 64)) = 128 + (cp / 64) mod 64)
      by (apply to_N_byte_small; arith).
    assert (Hb4 : Byte.to_N (byte_of_N (128 + cp mod 64)) = 128 + cp mod 64)
      by (apply to_N_byte_small; arith).
    rewrite utf8_decode_more; [|lia|].
    + change (3 - 1) with 2. rewrite utf8_decode_more; [|lia|rewrite Hb3; arith].
      change (2 - 1) with 1. rewrite utf8_decode_last by (rewrite Hb4; arith).
      rewrite Hb2, Hb3, Hb4. f_equal. arith.
    + rewrite Hb2.
      destruct (N.eqb_spec (240 + cp / 262144) 240);
        destruct (N.eqb_spec (240 + cp / 262144) 244); arith.
Qed.

Lemma utf8_decode_encode (cps : list N) :
  Forall scalar cps ->
  utf8_decode decoder_start (flat_map utf8_encode_code_point cps) = cps.
Proof.
  induction 1 as [|cp cps Hcp _ IH]; [reflexivity|].
  cbn [flat_map]. rewrite (utf8_decode_encode_code_point cp _ Hcp). now f_equal.
Qed.

(** *** Code points of a string *)

Lemma code_points_cons (c : code_unit) (r : jsstring) :
  code_points (c :: r)
  = if is_high_surrogate (code c) then
      match r with
      | d :: r' =>
          if is_low_surrogate (code d)
          then (65536 + (code c - 55296) * 1024 + (code d - 56320)) :: code_points r'
          else replacement :: code_points r
      | [] => [replacement]
      end
    else if is_low_surrogate (code c) then replacement :: code_points r
    else code c :: code_points r.
Proof. destruct r; reflexivity. Qed.

Lemma code_points_pair (c d : code_unit) (r : jsstring) :
  is_high_surrogate (code c) = true -> is_low_surrogate (code d) = true ->
  code_points (c :: d :: r)
  = (65536 + (code c - 55296) * 1024 + (code d - 56320)) :: code_points r.
Proof. intros H1 H2. cbn [code_points]. cbv zeta. now rewrite H1, H2. Qed.

Lemma code_points_plain (c : code_unit) (r : jsstring) :
  is_high_surrogate (code c) = false -> is_low_surrogate (code c) = false ->
  code_points (c :: r) = code c :: code_points r.
Proof. intros H1 H2. cbn [code_points]. cbv zeta. now rewrite H1, H2. Qed.

Lemma scalar_replacement : scalar replacement.
Proof. unfold scalar, replacement. lia. Qed.

Lemma code_points_scalar (s : jsstring) : Forall scalar (code_points s).
Proof.
  enough (H : Forall scalar (code_points s)
              /\ forall c, Forall scalar (code_points (c :: s))) by apply H.
  induction s as [|d r [IH1 IH2]].
  - split; [constructor|]. intros c. cbn [code_points]. cbv zeta.
    destruct (is_high_surrogate (code c)) eqn:Eh.
    + constructor; [apply scalar_replacement | constructor].
    + destruct (is_low_surrogate (code c)) eqn:El.
      * constructor; [apply scalar_replacement | constructor].
      * constructor; [|constructor]. apply is_high_false in Eh. apply is_low_false in El.
        pose proof (code_lt c). unfold scalar. lia.
  - split; [apply IH2|]. intros c.
    destruct (is_high_surrogate (code c)) eqn:Eh.
    + destruct (is_low_surrogate (code d)) eqn:El.
      * rewrite code_points_pair by assumption. constructor; [|exact IH1].
        apply surrogate_tests in Eh. apply surrogate_tests in El.
        unfold scalar. lia.
      * rewrite code_points_cons, Eh, El.
        constructor; [apply scalar_replacement|]. apply (IH2 d).
    + rewrite code_points_cons, Eh.
      destruct (is_low_surrogate (code c)) eqn:El.
      * constructor; [apply scalar_replacement|]. apply (IH2 d).
      * constructor; [|apply (IH2 d)].
        apply is_high_false in Eh. apply is_low_false in El.
        pose proof (code_lt c). unfold scalar. lia.
Qed.

(** [decode] after [encode], on any string. *)
Lemma decode_encode_any (s : jsstring) :
  decode (encode s)
  = flat_map code_units_of (strip_byte_order_mark (code_points s)).
Proof.
  unfold decode, encode. now rewrite utf8_decode_encode by apply code_points_scalar.
Qed.

Lemma code_units_of_plain (c : code_unit) : code_units_of (code c) = [c].
Proof.
  unfold code_units_of. pose proof (code_lt c).
  destruct (N.ltb_spec (code c) 65536); [|lia]. now rewrite unit_of_code.
Qed.

Lemma code_units_of_pair (c d : code_unit) :
  is_high_surrogate (code c) = true -> is_low_surrogate (code d) = true ->
  code_units_of (65536 + (code c - 55296) * 1024 + (code d - 56320)) = [c; d].
Proof.
  intros Hc Hd. apply surrogate_tests in Hc. apply surrogate_tests in Hd.
  unfold code_units_of.
  destruct (N.ltb_spec (65536 + (code c - 55296) * 1024 + (code d - 56320)) 65536);
    [lia|].
  set (cp := 65536 + (code c - 55296) * 1024 + (code d - 56320)) in *.
  assert (E1 : 55296 + (cp - 65536) / 1024 = code c) by (subst cp; arith).
  assert (E2 : 56320 + (cp - 65536) mod 1024 = code d) by (subst cp; arith).
  now rewrite E1, E2, !unit_of_code.
Qed.

(** A well-formed string is its own scalar value string. *)
Lemma toWellFormed_well_formed (s : jsstring) :
  well_formed s = true -> toWellFormed s = s.
Proof.
  unfold toWellFormed.
  enough (H : (well_formed s = true -> flat_map code_units_of (code_points s) = s)
              /\ forall c, well_formed (c :: s) = true ->
                           flat_map code_units_of (code_points (c :: s)) = c :: s)
    by apply H.
  induction s as [|d r [IH1 IH2]].
  - split; [reflexivity|]. intros c. cbn [well_formed code_points]. cbv zeta.
    destruct (is_high_surrogate (code c)); [discriminate|].
    destruct (is_low_surrogate (code c)); [discriminate|].
    intros _. cbn [flat_map]. now rewrite code_units_of_plain.
  - split; [apply IH2|]. intros c Hwf.
    destruct (is_high_surrogate (code c)) eqn:Eh.
    + cbn [well_formed] in Hwf. rewrite Eh in Hwf.
      apply andb_true_iff in Hwf. destruct Hwf as [El Hr].
      rewrite code_points_pair by assumption. cbn [flat_map].
      rewrite code_units_of_pair by assumption. cbn [app]. now rewrite IH1.
    + change (well_formed (c :: d :: r))
        with (if is_high_surrogate (code c)
              then is_low_surrogate (code d) && well_formed r
              else negb (is_low_surrogate (code c)) && well_formed (d :: r)) in Hwf.
      rewrite Eh in Hwf. apply andb_true_iff in Hwf. destruct Hwf as [El Hr].
      apply negb_true_iff in El.
      rewrite code_points_plain by assumption. cbn [flat_map].
      rewrite code_units_of_plain. cbn [app]. f_equal. now apply IH2.
Qed.

(** [decode] after [encode] is the identity on the well-formed strings
    that do not start with a byte order mark. *)
Lemma decode_encode (s : jsstring) :
  well_formed s = true -> starts_with_byte_order_mark s = false ->
  decode (encode s) = s.
Proof.
  intros Hwf Hbom. rewrite decode_encode_any.
  assert (E : strip_byte_order_mark (code_points s) = code_points s).
  { destruct s as [|c r]; [reflexivity|].
    cbn [starts_with_byte_order_mark] in Hbom. apply N.eqb_neq in Hbom.
    unfold byte_order_mark in Hbom.
    destruct (is_high_surrogate (code c)) eqn:Eh.
    - cbn [well_formed] in Hwf. rewrite Eh in Hwf. destruct r as [|d r]; [discriminate|].
      apply andb_true_iff in Hwf. destruct Hwf as [El _].
      rewrite code_points_pair by assumption.
      apply surrogate_tests in Eh. apply surrogate_tests in El.
      unfold strip_byte_order_mark, byte_order_mark.
      destruct (N.eqb_spec (65536 + (code c - 55296) * 1024 + (code d - 56320)) 65279);
        [lia|reflexivity].
    - cbn [well_formed] in Hwf. rewrite Eh in Hwf.
      apply andb_true_iff in Hwf. destruct Hwf as [El _]. apply negb_true_iff in El.
      rewrite code_points_plain by assumption.
      unfold strip_byte_order_mark, byte_order_mark.
      destruct (N.eqb_spec (code c) 65279); [lia|reflexivity]. }
  rewrite E. now apply toWellFormed_well_formed.
Qed.

(** *** ASCII strings *)

Lemma ascii_app (s t : jsstring) : ascii s -> ascii t -> ascii (s ++ t).
Proof. intros Hs Ht. apply Forall_app. now split. Qed.

Lemma ascii_not_surrogate (c : code_unit) :
  code c < 128 ->
  is_high_surrogate (code c) = false /\ is_low_surrogate (code c) = false.
Proof. intros H. rewrite is_high_false, is_low_false. lia. Qed.

Lemma code_points_ascii_app (p x : jsstring) :
  ascii p -> code_points (p ++ x) = List.map code p ++ code_points x.
Proof.
  induction 1 as [|c p Hc _ IH]; [reflexivity|].
  destruct (ascii_not_surrogate c Hc) as [Eh El].
  cbn [app List.map]. rewrite code_points_plain by assumption. now rewrite IH.
Qed.

Lemma code_units_of_map_code (p : jsstring) (l : list N) :
  flat_map code_units_of (List.map code p ++ l) = p ++ flat_map code_units_of l.
Proof.
  induction p as [|c p IH]; [reflexivity|].
  cbn [List.map app flat_map]. now rewrite code_units_of_plain, IH.
Qed.

(** Behind a non-empty ASCII prefix, [decode] after [encode] keeps the
    prefix and makes the rest well-formed. *)
Lemma decode_encode_ascii_app (p x : jsstring) :
  ascii p -> p <> [] -> decode (encode (p ++ x)) = p ++ toWellFormed x.
Proof.
  intros Hp Hne. rewrite decode_encode_any, (code_points_ascii_app p x Hp).
  destruct p as [|c p]; [congruence|]. inversion Hp as [|? ? Hc Hp']; subst.
  cbn [List.map app strip_byte_order_mark]. unfold byte_order_mark.
  destruct (N.eqb_spec (code c) 65279); [lia|].
  exact (code_units_of_map_code (c :: p) (code_points x)).
Qed.

Lemma well_formed_ascii (s : jsstring) : ascii s -> well_formed s = true.
Proof.
  induction 1 as [|c s Hc _ IH]; [reflexivity|].
  destruct (ascii_not_surrogate c Hc) as [Eh El].
  cbn [well_formed]. now rewrite Eh, El, IH.
Qed.

(** [decode] after [encode] on any string: a leading U+FEFF is dropped,
    and every surrogate that is not part of a pair is replaced. *)
Lemma decode_encode_replaced (s : jsstring) :
  decode (encode s)
  = toWellFormed (if starts_with_byte_order_mark s then List.tl s else s).
Proof.
  rewrite decode_encode_any. unfold toWellFormed. f_equal.
  destruct s as [|c r]; [reflexivity|].
  cbn [starts_with_byte_order_mark]. unfold byte_order_mark.
  destruct (N.eqb_spec (code c) 65279) as [Hb|Hb].
  - cbn [List.tl code_points]. cbv zeta. rewrite Hb. reflexivity.
  - cbn [code_points]. cbv zeta.
    unfold is_high_surrogate, is_low_surrogate, replacement.
    destruct ((55296 <=? code c) && (code c <=? 56319)) eqn:Eh.
    + apply andb_true_iff in Eh. destruct Eh as [E1 E2].
      apply N.leb_le in E1. apply N.leb_le in E2.
      destruct r as [|d r']; [reflexivity|].
      destruct ((56320 <=? code d) && (code d <=? 57343)) eqn:El.
      * apply andb_true_iff in El. destruct El as [E3 E4].
        apply N.leb_le in E3. apply N.leb_le in E4.
        cbn [strip_byte_order_mark]. unfold byte_order_mark.
        destruct (N.eqb_spec (65536 + (code c - 55296) * 1024 + (code d - 56320)) 65279);
          [lia|reflexivity].
      * reflexivity.
    + destruct ((56320 <=? code c) && (code c <=? 57343)); [reflexivity|].
      cbn [strip_byte_order_mark]. unfold byte_order_mark.
      destruct (N.eqb_spec (code c) 65279); [lia|reflexivity].
Qed.

End TextFacts.

(* ================================================================== *)
(** ** Facts about [crypto.ts] *)
(* ================================================================== *)

Module CryptoFacts.
Import JS JSFacts Buffer Base64Facts Text TextFacts WebCrypto Crypto.

(** *** The strings the program builds are ASCII *)

Lemma code_alphabet_lt (v : N) : (code (alphabet v) < 128)%N.
Proof.
  unfold alphabet.
  destruct (N.ltb_spec v 26); [rewrite code_unit_of; lia|].
  destruct (N.ltb_spec v 52); [rewrite code_unit_of; lia|].
  destruct (N.ltb_spec v 62); [rewrite code_unit_of; lia|].
  destruct (N.eqb_spec v 62); rewrite code_unit_of; lia.
Qed.

Lemma ascii_base64 (bs : bytes) : ascii (arrayBufferToBase64 bs).
Proof.
  unfold arrayBufferToBase64, ascii.
  induction bs as [|a|a b|a b c r IH] using bytes_ind3;
    cbn [toString_base64]; cbv zeta;
    repeat first [ exact IH
                 | apply Forall_nil
                 | apply Forall_cons; [first [apply code_alphabet_lt | now cbv]|] ].
Qed.

Lemma ascii_N_toString (n : N) : ascii (N_toString n).
Proof.
  unfold ascii, N_toString. apply Forall_map.
  eapply Forall_impl; [|apply decimal_digits_lt].
  intros d Hd. cbv beta in Hd. rewrite (code_digit_unit d Hd). lia.
Qed.

Lemma ascii_address (p : Z) : ascii (padStart 10 (toString p)).
Proof.
  unfold padStart. apply ascii_app.
  - apply Forall_forall. intros c Hc. apply repeat_spec in Hc. subst c. now cbv.
  - unfold toString. destruct p; try apply ascii_N_toString.
    apply Forall_cons; [now cbv | apply ascii_N_toString].
Qed.

Lemma address_not_empty (p : Z) : padStart 10 (toString p) <> [].
Proof.
  intros E. apply (f_equal (@List.length _)) in E.
  unfold padStart in E. rewrite length_app, repeat_length in E.
  cbn [List.length] in E. lia.
Qed.

Lemma base64_not_empty (bs : bytes) : bs <> [] -> arrayBufferToBase64 bs <> [].
Proof.
  unfold arrayBufferToBase64. destruct bs as [|a [|b [|c r]]]; [congruence| | |]; discriminate.
Qed.

Section WithSubtle.
Context {subtle : Subtle}.

(** *** Symmetric encryption *)

Lemma length_getRandomValues (random : nat -> byte) (n : nat) :
  List.length (getRandomValues random n) = n.
Proof. unfold getRandomValues. now rewrite length_map, length_seq. Qed.

(** Every sequence of [n] bytes is a value of [getRandomValues]. *)
Lemma getRandomValues_nth (iv : bytes) :
  getRandomValues (fun i => nth i iv x00) (List.length iv) = iv.
Proof.
  unfold getRandomValues. induction iv as [|b iv IH]; [reflexivity|].
  cbn [List.length seq List.map nth]. f_equal.
  rewrite <- seq_shift, map_map. exact IH.
Qed.

Lemma symEncrypt_blob (random : nat -> byte) (key : SecretKey) (data : jsstring) :
  let iv := getRandomValues random 16 in
  exists c,
    encrypt_AES_CBC key iv (Text.encode data) = Some c
    /\ symEncrypt random key data
       = Some (arrayBufferToBase64 iv ++ arrayBufferToBase64 c)
    /\ decrypt_AES_CBC key iv c = Some (Text.encode data).
Proof.
  cbv zeta.
  destruct (AES_CBC_correct key (getRandomValues random 16) (Text.encode data)
              (length_getRandomValues random 16)) as (c & Hc & Hd).
  exists c. unfold symEncrypt. cbv zeta. now rewrite Hc.
Qed.

Lemma importSymKey_exportSymKey (key : SecretKey) :
  importSymKey (exportSymKey key) = Some key.
Proof.
  unfold importSymKey, exportSymKey, base64ToArrayBuffer, arrayBufferToBase64.
  rewrite from_base64_toString. apply import_export_raw.
Qed.

Lemma symDecrypt_blob (iv c : bytes) (key : SecretKey) (plain : bytes) :
  List.length iv = 16 ->
  decrypt_AES_CBC key iv c = Some plain ->
  symDecrypt (exportSymKey key) (arrayBufferToBase64 iv ++ arrayBufferToBase64 c)
  = Some (Text.decode plain).
Proof.
  intros Hiv Hd. unfold symDecrypt. rewrite importSymKey_exportSymKey.
  pose proof (length_base64_16 _ Hiv) as Hl.
  unfold arrayBufferToBase64.
  rewrite (slice_to_app _ _ _ Hl), (slice_from_app _ _ _ Hl).
  unfold base64ToArrayBuffer. rewrite !from_base64_toString. now rewrite Hd.
Qed.

(** [symDecrypt] after [symEncrypt], on any plaintext. *)
Lemma symDecrypt_after_symEncrypt (random : nat -> byte) (key : SecretKey)
    (data : jsstring) :
  exists blob,
    symEncrypt random key data = Some blob
    /\ ascii blob
    /\ slice_to 24 blob = arrayBufferToBase64 (getRandomValues random 16)
    /\ symDecrypt (exportSymKey key) blob = Some (Text.decode (Text.encode data)).
Proof.
  destruct (symEncrypt_blob random key data) as (c & _ & He & Hd).
  pose proof (length_getRandomValues random 16) as Hiv.
  exists (arrayBufferToBase64 (getRandomValues random 16) ++ arrayBufferToBase64 c).
  split; [exact He|]. split; [apply ascii_app; apply ascii_base64|]. split.
  - apply slice_to_app. now apply length_base64_16.
  - now apply symDecrypt_blob.
Qed.

(** *** Asymmetric encryption of a symmetric key *)

Lemma importPubKey_exportPubKey (key : PublicKey) :
  importPubKey (exportPubKey key) = Some key.
Proof.
  unfold importPubKey, exportPubKey, base64ToArrayBuffer, arrayBufferToBase64.
  rewrite from_base64_toString. apply import_export_spki.
Qed.

Lemma importPrvKey_exportPrvKey (key : PrivateKey) (s : jsstring) :
  exportPrvKey (Some key) = Some s -> importPrvKey s = Some key.
Proof.
  intros E. injection E as <-.
  unfold importPrvKey, base64ToArrayBuffer, arrayBufferToBase64.
  rewrite from_base64_toString. apply import_export_pkcs8.
Qed.

Lemma rsaDecrypt_rsaEncrypt (seed seed' : bytes) (symKey : SecretKey) :
  exists e,
    rsaEncrypt seed' (exportSymKey symKey) (exportPubKey (fst (generateRsaKeyPair seed)))
    = Some e
    /\ List.length e = 344
    /\ ascii e
    /\ N.of_nat (List.length (base64ToArrayBuffer e)) = (2048 / 8)%N
    /\ rsaDecrypt e (snd (generateRsaKeyPair seed)) = Some (exportSymKey symKey).
Proof.
  unfold rsaEncrypt, rsaDecrypt. rewrite importPubKey_exportPubKey.
  unfold exportSymKey, base64ToArrayBuffer, arrayBufferToBase64, generateRsaKeyPair.
  rewrite from_base64_toString.
  pose proof (raw_key_length symKey) as Hk.
  destruct (RSA_OAEP_correct 2048 seed seed' (exportKey_raw symKey)) as (c & Hc & Hl & Hd).
  { reflexivity. }
  { change (2048 / 8)%N with 256%N. lia. }
  exists (toString_base64 c). rewrite Hc. split; [reflexivity|].
  rewrite from_base64_toString. split.
  - apply length_base64_256. change (2048 / 8)%N with 256%N in Hl. lia.
  - split; [apply ascii_base64|]. split; [exact Hl|]. now rewrite Hd.
Qed.

End WithSubtle.
End CryptoFacts.

(* ================================================================== *)
(** ** A transparent instance of the primitives *)
(* ================================================================== *)

(** The contracts of [WebCrypto.Subtle] hold of an instance without any
    secrecy, in which every operation computes: a key pair is its modulus
    length, RSA-OAEP pads the data to the length of the modulus, an AES
    key is one byte repeated, and AES-CBC prefixes the data with the key.
    Runs of the program on concrete requests are computed with it. *)
Module Transparent.
Import JS.

Definition export_modulus (tag : byte) (n : N) : bytes :=
  tag :: List.repeat x01 (N.to_nat n).

Definition import_modulus (tag : byte) (bs : bytes) : option N :=
  match bs with
  | t :: r =>
      if Byte.eqb t tag && forallb (Byte.eqb x01) r
      then Some (N.of_nat (List.length r)) else None
  | [] => None
  end.

Definition pad_to_modulus (n : N) (data : bytes) : option bytes :=
  let k := N.to_nat (n / 8) in
  if List.length data + 66 <=? k
  then Some (List.repeat x00 (k - List.length data - 1) ++ x01 :: data)
  else None.

Fixpoint unpad (c : bytes) : option bytes :=
  match c with
  | [] => None
  | b :: r =>
      if Byte.eqb b x00 then unpad r
      else if Byte.eqb b x01 then Some r
      else None
  end.

Definition unpad_modulus (n : N) (c : bytes) : option bytes :=
  if List.length c =? N.to_nat (n / 8) then unpad c else None.

Definition export_secret (k : byte) : bytes := List.repeat k 32.

Definition import_secret (bs : bytes) : option byte :=
  match bs with
  | b :: _ =>
      if (List.length bs =? 32) && forallb (Byte.eqb b) bs then Some b else None
  | [] => None
  end.

Definition prefix_key (k : byte) (iv data : bytes) : option bytes :=
  if List.length iv =? 16 then Some (k :: data) else None.

Definition remove_key (k : byte) (iv c : bytes) : option bytes :=
  if List.length iv =? 16 then
    match c with
    | k' :: data => if Byte.eqb k k' then Some data else None
    | [] => None
    end
  else None.

Lemma byte_eqb_refl (b : byte) : Byte.eqb b b = true.
Proof. now apply Byte.byte_dec_lb. Qed.

Lemma forallb_repeat (b : byte) (n : nat) :
  forallb (Byte.eqb b) (List.repeat b n) = true.
Proof. induction n as [|n IH]; [reflexivity|]. cbn. now rewrite byte_eqb_refl. Qed.

Lemma import_export_modulus (tag : byte) (n : N) :
  import_modulus tag (export_modulus tag n) = Some n.
Proof.
  unfold import_modulus, export_modulus.
  now rewrite byte_eqb_refl, forallb_repeat, repeat_length, N2Nat.id.
Qed.

Lemma import_export_secret (k : byte) : import_secret (export_secret k) = Some k.
Proof.
  unfold import_secret, export_secret.
  change (List.repeat k 32) with (k :: List.repeat k 31). cbv iota.
  change (k :: List.repeat k 31) with (List.repeat k 32).
  now rewrite repeat_length, forallb_repeat.
Qed.

Lemma export_modulus_not_empty (tag : byte) (n : N) : export_modulus tag n <> [].
Proof. discriminate. Qed.

Lemma export_secret_length (k : byte) : 16 <= List.length (export_secret k) <= 32.
Proof. unfold export_secret. rewrite repeat_length. lia. Qed.

Lemma unpad_zeros (m : nat) (data : bytes) :
  unpad (List.repeat x00 m ++ x01 :: data) = Some data.
Proof. induction m as [|m IH]; [reflexivity|]. exact IH. Qed.

Lemma pad_to_modulus_correct (n : N) (data : bytes) :
  (N.of_nat (List.length data) + 66 <= n / 8)%N ->
  exists c,
    pad_to_modulus n data = Some c
    /\ N.of_nat (List.length c) = (n / 8)%N
    /\ unpad_modulus n c = Some data.
Proof.
  intros H. unfold pad_to_modulus, unpad_modulus. cbv zeta.
  assert (Hk : List.length data + 66 <= N.to_nat (n / 8)) by lia.
  apply Nat.leb_le in Hk. rewrite Hk. apply Nat.leb_le in Hk.
  eexists. split; [reflexivity|].
  assert (Hl : List.length (List.repeat x00 (N.to_nat (n / 8) - List.length data - 1)
                            ++ x01 :: data) = N.to_nat (n / 8)).
  { rewrite length_app, repeat_length. cbn [List.length]. lia. }
  split.
  - rewrite Hl. apply N2Nat.id.
  - rewrite Hl, Nat.eqb_refl. apply unpad_zeros.
Qed.

Lemma prefix_key_correct (k : byte) (iv data : bytes) :
  List.length iv = 16 ->
  exists c, prefix_key k iv data = Some c /\ remove_key k iv c = Some data.
Proof.
  intros H. unfold prefix_key, remove_key. rewrite H. cbn [Nat.eqb].
  exists (k :: data). split; [reflexivity|]. cbv iota. now rewrite byte_eqb_refl.
Qed.

Definition subtle : WebCrypto.Subtle := {|
  WebCrypto.PublicKey := N;
  WebCrypto.PrivateKey := N;
  WebCrypto.SecretKey := byte;
  WebCrypto.generateKey_RSA_OAEP := fun n _ => (n, n);
  WebCrypto.exportKey_spki := export_modulus x30;
  WebCrypto.importKey_spki := import_modulus x30;
  WebCrypto.exportKey_pkcs8 := export_modulus x31;
  WebCrypto.importKey_pkcs8 := import_modulus x31;
  WebCrypto.encrypt_RSA_OAEP := fun n _ data => pad_to_modulus n data;
  WebCrypto.decrypt_RSA_OAEP := unpad_modulus;
  WebCrypto.generateKey_AES_CBC := fun _ seed => List.hd x00 seed;
  WebCrypto.exportKey_raw := export_secret;
  WebCrypto.importKey_raw := import_secret;
  WebCrypto.encrypt_AES_CBC := prefix_key;
  WebCrypto.decrypt_AES_CBC := remove_key;
  WebCrypto.import_export_spki := import_export_modulus x30;
  WebCrypto.import_export_pkcs8 := import_export_modulus x31;
  WebCrypto.import_export_raw := import_export_secret;
  WebCrypto.pkcs8_not_empty := export_modulus_not_empty x31;
  WebCrypto.raw_key_length := export_secret_length;
  WebCrypto.RSA_OAEP_correct := fun n _ _ data _ => pad_to_modulus_correct n data;
  WebCrypto.AES_CBC_correct := prefix_key_correct
|}.

(** Ports for the runs. *)
Definition config : Config := {|
  REGISTRY_PORT := 8080;
  BASE_ONION_ROUTER_PORT := 4000;
  BASE_USER_PORT := 3000
|}.

End Transparent.

(* ================================================================== *)
(** ** Facts about the registry and the selection loop *)
(* ================================================================== *)

Module RegistryFacts.
Import Registry.

Lemma run_nodes (reqs : list request) : forall st,
  nodes (getNodeRegistryBody (fst (run st reqs)))
  = nodes (getNodeRegistryBody st) ++ registered reqs.
Proof.
  induction reqs as [|req rest IH]; intros st.
  - cbn. now rewrite app_nil_r.
  - cbn [run]. destruct (handle st req) as [st' r] eqn:E.
    specialize (IH st'). destruct (run st' rest) as [st'' rs]. cbn [fst] in *.
    rewrite IH. destruct req; cbn in E; injection E as <- _; cbn.
    + destruct body. cbn. now rewrite <- app_assoc.
    + reflexivity.
    + reflexivity.
    + reflexivity.
Qed.

Lemma listing (st : state) :
  snd (handle st GET_getNodeRegistry)
  = json_nodes {| nodes := nodes (getNodeRegistryBody st) |}.
Proof. cbn. now destruct (getNodeRegistryBody st). Qed.

End RegistryFacts.

Module SelectionFacts.
Import JS Registry User.

(** The identities of the elements of a circuit; [None] is [undefined]. *)
Definition identities (circuit : list (option object)) : list (option nat) :=
  List.map (option_map address) circuit.

Lemma same_value_spec (x y : option object) :
  same_value x y = true <-> option_map address x = option_map address y.
Proof.
  destruct x as [a|], y as [b|]; cbn; try (split; congruence).
  rewrite Nat.eqb_eq. split; congruence.
Qed.

Lemma includes_spec (circuit : list (option object)) (x : option object) :
  includes circuit x = true <-> In (option_map address x) (identities circuit).
Proof.
  unfold includes, identities. rewrite existsb_exists, in_map_iff. split.
  - intros (y & Hy & E). exists y. apply same_value_spec in E. now split.
  - intros (y & E & Hy). exists y. split; [exact Hy|]. now apply same_value_spec.
Qed.

Lemma randomIndex_lt (bits len : N) : (0 < len -> randomIndex bits len < len)%N.
Proof.
  intros H. unfold randomIndex. apply N.Div0.div_lt_upper_bound.
  pose proof (N.mod_upper_bound bits (2 ^ 53)).
  assert (2 ^ 53 <> 0)%N by (apply N.pow_nonzero; lia).
  nia.
Qed.

Lemma randomIndex_empty (bits : N) : randomIndex bits 0 = 0%N.
Proof. unfold randomIndex. now rewrite N.mul_0_r. Qed.

Lemma element_in_range (nodes : list Node) (i : N) :
  N.to_nat i < List.length nodes ->
  exists node,
    nth_error nodes (N.to_nat i) = Some node
    /\ element nodes i = Some (Obj (N.to_nat i) node).
Proof.
  intros H. unfold element.
  destruct (nth_error nodes (N.to_nat i)) as [node|] eqn:E.
  - now exists node.
  - apply nth_error_None in E. lia.
Qed.

(** The element that the [k]-th iteration looks at. *)
Definition drawn (random : nat -> N) (nodes : list Node) (k : nat) : option object :=
  element nodes (randomIndex (random k) (N.of_nat (List.length nodes))).

Lemma drawn_in_range (random : nat -> N) (nodes : list Node) (k : nat) :
  0 < List.length nodes ->
  exists i node,
    i < List.length nodes /\ nth_error nodes i = Some node
    /\ drawn random nodes k = Some (Obj i node).
Proof.
  intros H. unfold drawn.
  pose proof (randomIndex_lt (random k) (N.of_nat (List.length nodes))) as Hlt.
  set (i := randomIndex (random k) (N.of_nat (List.length nodes))) in *.
  assert (Hi : N.to_nat i < List.length nodes) by lia.
  destruct (element_in_range nodes i Hi) as (node & Hn & He).
  exists (N.to_nat i), node. auto.
Qed.

Lemma select_step (fuel : nat) (random : nat -> N) (k : nat)
    (nodes : list Node) (circuit : list (option object)) :
  List.length circuit < 3 ->
  select (S fuel) random k nodes circuit
  = if includes circuit (drawn random nodes k)
    then select fuel random (S k) nodes circuit
    else select fuel random (S k) nodes (circuit ++ [drawn random nodes k]).
Proof.
  intros H. cbn [select]. apply Nat.ltb_lt in H. rewrite H. cbv zeta.
  fold (drawn random nodes k).
  now destruct (includes circuit (drawn random nodes k)).
Qed.

Lemma select_done (fuel : nat) (random : nat -> N) (k : nat)
    (nodes : list Node) (circuit : list (option object)) :
  3 <= List.length circuit -> select fuel random k nodes circuit = Some circuit.
Proof.
  intros H. destruct fuel; cbn [select];
    destruct (Nat.ltb_spec (List.length circuit) 3); (lia || reflexivity).
Qed.

Lemma select_out_of_fuel (random : nat -> N) (k : nat)
    (nodes : list Node) (circuit : list (option object)) :
  List.length circuit < 3 -> select 0 random k nodes circuit = None.
Proof. intros H. cbn [select]. apply Nat.ltb_lt in H. now rewrite H. Qed.

Lemma identities_push (circuit : list (option object)) (x : option object) :
  identities (circuit ++ [x]) = identities circuit ++ [option_map address x].
Proof. unfold identities. now rewrite map_app. Qed.

Lemma NoDup_push (circuit : list (option object)) (x : option object) :
  NoDup (identities circuit) -> includes circuit x = false ->
  NoDup (identities (circuit ++ [x])).
Proof.
  intros Hnd Hinc. rewrite identities_push.
  apply NoDup_app; [exact Hnd | repeat constructor; intros [] |].
  intros a Ha [<-|[]].
  apply includes_spec in Ha. congruence.
Qed.

(** What the loop returns, from any iteration on. *)
Lemma select_invariant (random : nat -> N) (nodes : list Node)
    (P : option object -> Prop) (fuel : nat) :
  (forall k, P (drawn random nodes k)) ->
  forall k circuit result,
    select fuel random k nodes circuit = Some result ->
    List.length circuit <= 3 -> NoDup (identities circuit) -> Forall P circuit ->
    List.length result = 3 /\ NoDup (identities result) /\ Forall P result.
Proof.
  intros HP. induction fuel as [|fuel IH]; intros k circuit result Hsel Hlen Hnd Hall.
  - destruct (Nat.lt_ge_cases (List.length circuit) 3) as [Hlt|Hge].
    + rewrite select_out_of_fuel in Hsel by exact Hlt. discriminate.
    + rewrite select_done in Hsel by exact Hge. injection Hsel as <-.
      split; [lia|auto].
  - destruct (Nat.lt_ge_cases (List.length circuit) 3) as [Hlt|Hge].
    + rewrite select_step in Hsel by exact Hlt.
      destruct (includes circuit (drawn random nodes k)) eqn:Einc.
      * now apply (IH (S k) circuit).
      * apply (IH (S k) (circuit ++ [drawn random nodes k])); [exact Hsel | | |].
        -- rewrite length_app. cbn. lia.
        -- now apply NoDup_push.
        -- apply Forall_app. split; [exact Hall|]. constructor; [apply HP|constructor].
    + rewrite select_done in Hsel by exact Hge. injection Hsel as <-.
      split; [lia|auto].
Qed.

(** The identities a directory can give: those of its positions, and
    [undefined] alone when it is empty. *)
Definition possible (nodes : list Node) : list (option nat) :=
  match nodes with
  | [] => [None]
  | _ => List.map Some (seq 0 (List.length nodes))
  end.

Lemma drawn_possible (random : nat -> N) (nodes : list Node) (k : nat) :
  In (option_map address (drawn random nodes k)) (possible nodes).
Proof.
  destruct nodes as [|n nodes].
  - unfold drawn. cbn [List.length N.of_nat]. rewrite randomIndex_empty. now left.
  - destruct (drawn_in_range random (n :: nodes) k) as (i & node & Hi & _ & E);
      [cbn; lia|].
    rewrite E. cbn [option_map address possible].
    apply in_map, in_seq. lia.
Qed.

Lemma length_possible (nodes : list Node) :
  List.length (possible nodes) = Nat.max 1 (List.length nodes).
Proof.
  destruct nodes as [|n nodes]; [reflexivity|].
  cbn [possible]. rewrite length_map, length_seq. cbn [List.length]. lia.
Qed.

Lemma length_circuit_le (nodes : list Node) (circuit : list (option object)) :
  NoDup (identities circuit) -> incl (identities circuit) (possible nodes) ->
  List.length circuit <= Nat.max 1 (List.length nodes).
Proof.
  intros Hnd Hincl. rewrite <- length_possible.
  replace (List.length circuit) with (List.length (identities circuit))
    by apply length_map.
  now apply NoDup_incl_length.
Qed.

(** With fewer than three entries the loop is never left. *)
Lemma select_too_small (random : nat -> N) (nodes : list Node) (fuel : nat) :
  List.length nodes < 3 ->
  forall k circuit,
    NoDup (identities circuit) -> incl (identities circuit) (possible nodes) ->
    select fuel random k nodes circuit = None.
Proof.
  intros Hsmall. induction fuel as [|fuel IH]; intros k circuit Hnd Hincl;
    pose proof (length_circuit_le nodes circuit Hnd Hincl) as Hlen;
    assert (Hlt : List.length circuit < 3) by lia.
  - now apply select_out_of_fuel.
  - rewrite select_step by exact Hlt.
    destruct (includes circuit (drawn random nodes k)) eqn:Einc.
    + now apply IH.
    + apply IH; [now apply NoDup_push|].
      rewrite identities_push. apply incl_app; [exact Hincl|].
      intros a [<-|[]]. apply drawn_possible.
Qed.

(** While the loop runs, the circuit collects every element it looks at. *)
Lemma select_collects (random : nat -> N) (nodes : list Node) (fuel : nat) :
  forall k circuit,
    select fuel random k nodes circuit = None ->
    NoDup (identities circuit) ->
    exists circuit',
      List.length circuit' < 3 /\ NoDup (identities circuit')
      /\ incl (identities circuit) (identities circuit')
      /\ forall j, k <= j < k + fuel ->
           In (option_map address (drawn random nodes j)) (identities circuit').
Proof.
  induction fuel as [|fuel IH]; intros k circuit Hsel Hnd.
  - exists circuit. destruct (Nat.lt_ge_cases (List.length circuit) 3) as [Hlt|Hge].
    + split; [exact Hlt|]. split; [exact Hnd|]. split; [apply incl_refl|].
      intros j Hj. lia.
    + rewrite select_done in Hsel by exact Hge. discriminate.
  - destruct (Nat.lt_ge_cases (List.length circuit) 3) as [Hlt|Hge].
    2:{ rewrite select_done in Hsel by exact Hge. discriminate. }
    rewrite select_step in Hsel by exact Hlt.
    destruct (includes circuit (drawn random nodes k)) eqn:Einc.
    + destruct (IH (S k) circuit Hsel Hnd) as (c' & Hl & Hn & Hsub & Hin).
      exists c'. split; [exact Hl|]. split; [exact Hn|]. split; [exact Hsub|].
      intros j Hj. destruct (Nat.eq_dec j k) as [->|Hne]; [|apply Hin; lia].
      apply Hsub. now apply includes_spec.
    + destruct (IH (S k) _ Hsel (NoDup_push _ _ Hnd Einc)) as (c' & Hl & Hn & Hsub & Hin).
      rewrite identities_push in Hsub.
      exists c'. split; [exact Hl|]. split; [exact Hn|]. split.
      * intros a Ha. apply Hsub, in_or_app. now left.
      * intros j Hj. destruct (Nat.eq_dec j k) as [->|Hne]; [|apply Hin; lia].
        apply Hsub, in_or_app. right. now left.
Qed.

(** The loop is left once three different elements have been looked at. *)
Lemma select_terminates (random : nat -> N) (nodes : list Node) (k1 k2 k3 : nat) :
  option_map address (drawn random nodes k1) <> option_map address (drawn random nodes k2) ->
  option_map address (drawn random nodes k1) <> option_map address (drawn random nodes k3) ->
  option_map address (drawn random nodes k2) <> option_map address (drawn random nodes k3) ->
  exists circuit,
    select (S (Nat.max k1 (Nat.max k2 k3))) random 0 nodes [] = Some circuit.
Proof.
  intros H12 H13 H23.
  destruct (select (S (Nat.max k1 (Nat.max k2 k3))) random 0 nodes []) as [c|] eqn:E;
    [now exists c|].
  exfalso.
  destruct (select_collects random nodes _ 0 [] E (NoDup_nil _))
    as (c' & Hl & Hn & _ & Hin).
  set (a := option_map address (drawn random nodes k1)) in *.
  set (b := option_map address (drawn random nodes k2)) in *.
  set (c := option_map address (drawn random nodes k3)) in *.
  assert (Hincl : incl [a; b; c] (identities c')).
  { intros x [<-|[<-|[<-|[]]]]; apply Hin; lia. }
  assert (Hnd : NoDup [a; b; c]).
  { repeat constructor; cbn; intuition congruence. }
  pose proof (NoDup_incl_length Hnd Hincl) as Hle.
  unfold identities in Hle. rewrite length_map in Hle. cbn in Hle. lia.
Qed.

(** More fuel does not change what the loop returns. *)
Lemma select_more_fuel (random : nat -> N) (nodes : list Node) (fuel : nat) :
  forall k circuit result,
    select fuel random k nodes circuit = Some result ->
    select (S fuel) random k nodes circuit = Some result.
Proof.
  induction fuel as [|fuel IH]; intros k circuit result Hsel.
  - destruct (Nat.lt_ge_cases (List.length circuit) 3) as [Hlt|Hge].
    + rewrite select_out_of_fuel in Hsel by exact Hlt. discriminate.
    + rewrite select_done in * by exact Hge. exact Hsel.
  - destruct (Nat.lt_ge_cases (List.length circuit) 3) as [Hlt|Hge].
    + rewrite select_step in Hsel by exact Hlt. rewrite select_step by exact Hlt.
      destruct (includes circuit (drawn random nodes k)); now apply IH.
    + rewrite select_done in * by exact Hge. exact Hsel.
Qed.

End SelectionFacts.

(* ================================================================== *)
(** ** Facts about the layers of an onion *)
(* ================================================================== *)

Module OnionFacts.
Import JS JSFacts Text TextFacts WebCrypto Crypto CryptoFacts Http.

Section WithConfig.
Context {subtle : Subtle} {config : Config}.

Lemma simpleOnionRouter_keys (nodeId : Z) (seed : bytes) :
  OnionRouter.holds_key (fst (OnionRouter.simpleOnionRouter nodeId seed)) seed
  /\ exists node,
       snd (OnionRouter.simpleOnionRouter nodeId seed) = Registry.POST_registerNode node
       /\ Registry.nodeId node = nodeId /\ OnionRouter.carries_key node seed.
Proof. split; [reflexivity|]. eexists. repeat split. Qed.

Lemma truthy_base64 (bs : bytes) :
  bs <> [] -> OnionRouter.truthy (Some (arrayBufferToBase64 bs)) = true.
Proof.
  intros H. apply base64_not_empty in H.
  now destruct (arrayBufferToBase64 bs).
Qed.

Lemma truthy_exportSymKey (symKey : SecretKey) :
  OnionRouter.truthy (Some (exportSymKey symKey)) = true.
Proof.
  apply truthy_base64. pose proof (raw_key_length symKey) as H.
  intros E. rewrite E in H. cbn in H. lia.
Qed.

(** One layer, and what the router that holds the key makes of it. *)
Lemma layer_decrypts (st : OnionRouter.state) (seed : bytes)
    (symKey : SecretKey) (iv : nat -> byte) (seed' : bytes) (content : jsstring) :
  OnionRouter.holds_key st seed ->
  exists encryptedSymKey encryptedMessage,
    rsaEncrypt seed' (exportSymKey symKey) (exportPubKey (fst (generateRsaKeyPair seed)))
    = Some encryptedSymKey
    /\ symEncrypt iv symKey content = Some encryptedMessage
    /\ List.length encryptedSymKey = 344
    /\ ascii (encryptedSymKey ++ encryptedMessage)
    /\ N.of_nat (List.length (base64ToArrayBuffer encryptedSymKey)) = (2048 / 8)%N
    /\ rsaDecrypt (slice_to 344 (encryptedSymKey ++ encryptedMessage))
                  (snd (generateRsaKeyPair seed)) = Some (exportSymKey symKey)
    /\ OnionRouter.decrypt_layer st (encryptedSymKey ++ encryptedMessage)
       = Some (Some (Text.decode (Text.encode content))).
Proof.
  intros Hkey.
  destruct (rsaDecrypt_rsaEncrypt seed seed' symKey) as (e & He & Hl & Ha & Hc & Hd).
  destruct (symDecrypt_after_symEncrypt iv symKey content) as (blob & Hb & Hab & _ & Hs).
  exists e, blob. split; [exact He|]. split; [exact Hb|]. split; [exact Hl|].
  split; [now apply ascii_app|]. split; [exact Hc|].
  rewrite (slice_to_app _ _ _ Hl). split; [exact Hd|].
  unfold OnionRouter.holds_key in Hkey. unfold OnionRouter.decrypt_layer. rewrite !Hkey.
  unfold exportPrvKey. rewrite truthy_base64 by apply pkcs8_not_empty.
  cbv beta iota. rewrite (importPrvKey_exportPrvKey _ _ eq_refl).
  rewrite (slice_to_app _ _ _ Hl), Hd, truthy_exportSymKey.
  now rewrite (slice_from_app _ _ _ Hl), Hs.
Qed.

(** What [/message] does once the layer has decrypted to an address of
    ten characters followed by [rest]. *)
Lemma message_of_decrypted (net : network) (st : OnionRouter.state)
    (layer address rest : jsstring) :
  OnionRouter.decrypt_layer st layer = Some (Some (address ++ rest)) ->
  List.length address = 10 ->
  let destination := Some (parseInt address) in
  OnionRouter.message net st layer
  = {| OnionRouter.final :=
         {| OnionRouter.nodeId := OnionRouter.nodeId st;
            OnionRouter.privateKey := OnionRouter.privateKey st;
            OnionRouter.lastMessageSource := Some (OnionRouter.nodeId st);
            OnionRouter.lastMessageDestination := destination;
            OnionRouter.lastReceivedEncryptedMessage := Some layer;
            OnionRouter.lastReceivedDecryptedMessage := Some rest |};
       OnionRouter.events :=
         Fetch destination (Some rest) (net destination (Some rest))
         :: fst (after_fetch (net destination (Some rest)));
       OnionRouter.completion_of :=
         snd (after_fetch (net destination (Some rest))) |}.
Proof.
  intros Hd Hl. cbv zeta. unfold OnionRouter.message. rewrite Hd.
  assert (Ht : OnionRouter.truthy (Some (address ++ rest)) = true).
  { destruct address; [discriminate|reflexivity]. }
  now rewrite Ht, (slice_to_app _ _ _ Hl), (slice_from_app _ _ _ Hl).
Qed.

Lemma decode_encode_address (port : Z) (rest : jsstring) :
  Text.decode (Text.encode (User.address_string port ++ rest))
  = User.address_string port ++ toWellFormed rest.
Proof.
  apply decode_encode_ascii_app; [apply ascii_address | apply address_not_empty].
Qed.

Lemma toWellFormed_ascii (s : jsstring) : ascii s -> toWellFormed s = s.
Proof. intros H. now apply toWellFormed_well_formed, well_formed_ascii. Qed.

(** One iteration of the encryption loop. *)
Lemma wrap_step (rnd : User.randomness) (i : nat) (node : User.object)
    (rest : list (option User.object)) (destination messageToSend : jsstring)
    (encryptedSymKey encryptedMessage : jsstring) :
  rsaEncrypt (User.oaep_seed rnd i)
             (exportSymKey (createRandomSymmetricKey (User.key_seed rnd i)))
             (Registry.pubKey (User.fields node)) = Some encryptedSymKey ->
  symEncrypt (User.iv rnd i) (createRandomSymmetricKey (User.key_seed rnd i))
             (destination ++ messageToSend) = Some encryptedMessage ->
  User.wrap rnd i (Some node :: rest) destination messageToSend
  = User.wrap rnd (S i) rest
      (User.address_string (BASE_ONION_ROUTER_PORT + Registry.nodeId (User.fields node)))
      (encryptedSymKey ++ encryptedMessage).
Proof. intros H1 H2. cbn [User.wrap]. cbv zeta. now rewrite H2, H1. Qed.

(** The router [st] answers [layer] by recording [rest] as the decrypted
    message and [port] as its destination, and by forwarding [rest] to
    [port]. *)
Definition forwards (net : network) (st : OnionRouter.state)
    (layer : jsstring) (port : Z) (rest : jsstring) : Prop :=
  OnionRouter.message net st layer
  = {| OnionRouter.final :=
         {| OnionRouter.nodeId := OnionRouter.nodeId st;
            OnionRouter.privateKey := OnionRouter.privateKey st;
            OnionRouter.lastMessageSource := Some (OnionRouter.nodeId st);
            OnionRouter.lastMessageDestination := Some (Num port);
            OnionRouter.lastReceivedEncryptedMessage := Some layer;
            OnionRouter.lastReceivedDecryptedMessage := Some rest |};
       OnionRouter.events :=
         Fetch (Some (Num port)) (Some rest) (net (Some (Num port)) (Some rest))
         :: fst (after_fetch (net (Some (Num port)) (Some rest)));
       OnionRouter.completion_of :=
         snd (after_fetch (net (Some (Num port)) (Some rest))) |}.

Lemma forwards_of_decrypted (net : network) (st : OnionRouter.state)
    (layer : jsstring) (port : Z) (rest : jsstring) :
  (0 <= port < 10 ^ 10)%Z ->
  OnionRouter.decrypt_layer st layer
  = Some (Some (User.address_string port ++ rest)) ->
  forwards net st layer port rest.
Proof.
  intros Hp Hd. unfold forwards.
  rewrite (message_of_decrypted net st layer _ _ Hd) by now apply length_address.
  unfold User.address_string. now rewrite parseInt_address by lia.
Qed.

(** The three layers of an onion, peeled by the routers that hold the
    keys of the circuit, outermost first. *)
Lemma onion_peels (rnd : User.randomness) (net : network)
    (n0 n1 n2 : User.object) (s0 s1 s2 : bytes)
    (r0 r1 r2 : OnionRouter.state)
    (message : jsstring) (destinationUserId : Z) :
  OnionRouter.carries_key (User.fields n0) s0 -> OnionRouter.holds_key r0 s0 ->
  OnionRouter.carries_key (User.fields n1) s1 -> OnionRouter.holds_key r1 s1 ->
  OnionRouter.carries_key (User.fields n2) s2 -> OnionRouter.holds_key r2 s2 ->
  (0 <= BASE_USER_PORT + destinationUserId < 10 ^ 10)%Z ->
  (0 <= BASE_ONION_ROUTER_PORT + Registry.nodeId (User.fields n0) < 10 ^ 10)%Z ->
  (0 <= BASE_ONION_ROUTER_PORT + Registry.nodeId (User.fields n1) < 10 ^ 10)%Z ->
  exists onion layer1 layer0,
    User.wrap rnd 0 [Some n0; Some n1; Some n2]
      (User.address_string (BASE_USER_PORT + destinationUserId)) message
    = Some onion
    /\ forwards net r2 onion
         (BASE_ONION_ROUTER_PORT + Registry.nodeId (User.fields n1)) layer1
    /\ forwards net r1 layer1
         (BASE_ONION_ROUTER_PORT + Registry.nodeId (User.fields n0)) layer0
    /\ forwards net r0 layer0
         (BASE_USER_PORT + destinationUserId) (toWellFormed message).
Proof.
  intros C0 H0 C1 H1 C2 H2 Pu P0 P1.
  unfold OnionRouter.carries_key in C0, C1, C2.
  set (k := fun i => createRandomSymmetricKey (User.key_seed rnd i)).
  destruct (layer_decrypts r0 s0 (k 0) (User.iv rnd 0) (User.oaep_seed rnd 0)
              (User.address_string (BASE_USER_PORT + destinationUserId) ++ message)
              H0)
    as (K0 & E0 & HK0 & HE0 & _ & A0 & _ & _ & D0).
  destruct (layer_decrypts r1 s1 (k 1) (User.iv rnd 1) (User.oaep_seed rnd 1)
              (User.address_string
                 (BASE_ONION_ROUTER_PORT + Registry.nodeId (User.fields n0))
               ++ (K0 ++ E0))
              H1)
    as (K1 & E1 & HK1 & HE1 & _ & A1 & _ & _ & D1).
  destruct (layer_decrypts r2 s2 (k 2) (User.iv rnd 2) (User.oaep_seed rnd 2)
              (User.address_string
                 (BASE_ONION_ROUTER_PORT + Registry.nodeId (User.fields n1))
               ++ (K1 ++ E1))
              H2)
    as (K2 & E2 & HK2 & HE2 & _ & A2 & _ & _ & D2).
  rewrite decode_encode_address in D0, D1, D2.
  rewrite (toWellFormed_ascii _ A0) in D1. rewrite (toWellFormed_ascii _ A1) in D2.
  rewrite <- C0 in HK0. rewrite <- C1 in HK1. rewrite <- C2 in HK2.
  exists (K2 ++ E2), (K1 ++ E1), (K0 ++ E0).
  split; [|split; [|split]].
  - rewrite (wrap_step rnd 0 n0 _ _ _ K0 E0 HK0 HE0).
    rewrite (wrap_step rnd 1 n1 _ _ _ K1 E1 HK1 HE1).
    rewrite (wrap_step rnd 2 n2 _ _ _ K2 E2 HK2 HE2).
    reflexivity.
  - now apply forwards_of_decrypted.
  - now apply forwards_of_decrypted.
  - now apply forwards_of_decrypted.
Qed.

(** What [/sendMessage] does with the circuit that the loop returned. *)
Lemma sendMessage_of_circuit (fuel : nat) (rnd : User.randomness) (net : network)
    (st : User.state) (message : jsstring) (destinationUserId : Z)
    (nodes : list Registry.Node) (n0 n1 n2 : User.object) (onion : jsstring) :
  User.select fuel (User.Math_random rnd) 0 nodes [] = Some [Some n0; Some n1; Some n2] ->
  User.wrap rnd 0 [Some n0; Some n1; Some n2]
    (User.address_string (BASE_USER_PORT + destinationUserId)) message = Some onion ->
  let port := Some (Num (BASE_ONION_ROUTER_PORT + Registry.nodeId (User.fields n2))) in
  User.sendMessage fuel rnd net st message destinationUserId nodes
  = {| User.final :=
         {| User.userId := User.userId st;
            User.lastReceivedMessages := User.lastReceivedMessages st;
            User.lastSentMessage := Some message;
            User.lastCircuit := [Some n2; Some n1; Some n0] |};
       User.events :=
         Fetch port (Some onion) (net port (Some onion))
         :: fst (after_fetch (net port (Some onion)));
       User.completion_of := snd (after_fetch (net port (Some onion))) |}.
Proof.
  intros Hs Hw. cbv zeta. unfold User.sendMessage. rewrite Hs, Hw.
  reflexivity.
Qed.

End WithConfig.
End OnionFacts.

(* ================================================================== *)
(** ** A concrete network *)
(* ================================================================== *)

(** Five routers with the identifiers 0 to 4, on the transparent
    primitives, registered in that order; the requests and the random
    draws of the runs that the examples below compute. *)
Module Scenario.
Import JS Http.

Definition router (nodeId : Z) : OnionRouter.state :=
  fst (@OnionRouter.simpleOnionRouter Transparent.subtle nodeId []).

Definition registration (nodeId : Z) : Registry.request :=
  snd (@OnionRouter.simpleOnionRouter Transparent.subtle nodeId []).

Definition registry : Registry.state :=
  fst (Registry.run Registry.launchRegistry
         [registration 0; registration 1; registration 2;
          registration 3; registration 4]).

Definition nodes : list Registry.Node :=
  Registry.nodes (Registry.getNodeRegistryBody registry).

(** [Math.random()] gives 0, 0.25, 0.5, 0.75, 0, ... : the indices 0, 1,
    2, 3, 0, ... of a directory of five entries. *)
Definition quarters (k : nat) : N := (N.of_nat (k mod 4) * 2 ^ 51)%N.

Definition randomness : User.randomness := {|
  User.Math_random := quarters;
  User.key_seed := fun i => [byte_of_N (65 + N.of_nat i)];
  User.iv := fun i _ => byte_of_N (N.of_nat i);
  User.oaep_seed := fun _ => []
|}.

(** The objects at the positions 0, 1 and 2 of the parsed listing. *)
Definition n0 : User.object := User.Obj 0 {| Registry.nodeId := 0;
  Registry.pubKey := @Crypto.exportPubKey Transparent.subtle 2048%N |}.
Definition n1 : User.object := User.Obj 1 {| Registry.nodeId := 1;
  Registry.pubKey := @Crypto.exportPubKey Transparent.subtle 2048%N |}.
Definition n2 : User.object := User.Obj 2 {| Registry.nodeId := 2;
  Registry.pubKey := @Crypto.exportPubKey Transparent.subtle 2048%N |}.

(** A network on which every request is answered with the status 200. *)
Definition reliable : network := fun _ _ => Resolved 200.

(** A network on which every request is answered with the status 500. *)
Definition failing : network := fun _ _ => Resolved 500.

(** A network on which no request is answered. *)
Definition unreachable : network := fun _ _ => Rejected.

(** The handlers on the transparent primitives. *)
Definition sendMessage := @User.sendMessage Transparent.subtle Transparent.config.
Definition message := @OnionRouter.message Transparent.subtle.

(** The message of the request that a handler forwarded (the empty
    string when it forwarded none). *)
Definition forwarded (events : list event) : jsstring :=
  match events with
  | Fetch _ (Some message) _ :: _ => message
  | _ => []
  end.

End Scenario.

(* ================================================================== *)
(** ** The registry *)
(* ================================================================== *)

Section RegistryProperties.
Import JS Registry RegistryFacts.

(** C6. The directory of the registry is append-only and keeps insertion
    order.  A [registerNode] request appends exactly its entry, whatever
    the directory holds; after any sequence of requests the listing is the
    earlier directory followed by the entries registered since, in the
    order of the requests; registering the same [nodeId] twice leaves two
    entries, and both are in every later listing, in that order. *)
Theorem registry_append_only
    (st : state) (reqs later : list request) (body : RegisterNodeBody)
    (id : Z) (pubKey1 pubKey2 : jsstring) :
  nodes (getNodeRegistryBody (fst (handle st (POST_registerNode body))))
  = nodes (getNodeRegistryBody st) ++ [body]
  /\ snd (handle (fst (run st reqs)) GET_getNodeRegistry)
     = json_nodes {| nodes := nodes (getNodeRegistryBody st) ++ registered reqs |}
  /\ snd (handle
            (fst (run st (POST_registerNode {| nodeId := id; pubKey := pubKey1 |}
                          :: POST_registerNode {| nodeId := id; pubKey := pubKey2 |}
                          :: later)))
            GET_getNodeRegistry)
     = json_nodes
         {| nodes := nodes (getNodeRegistryBody st)
                     ++ {| nodeId := id; pubKey := pubKey1 |}
                     :: {| nodeId := id; pubKey := pubKey2 |}
                     :: registered later |}.
Proof.
  split; [|split].
  - cbn. now destruct body.
  - now rewrite listing, run_nodes.
  - now rewrite listing, run_nodes.
Qed.

End RegistryProperties.

(** Registering the identifier 2 twice gives a directory of two entries. *)
Example register_twice :
  Registry.nodes
    (Registry.getNodeRegistryBody
       (fst (Registry.run Registry.launchRegistry
               [Scenario.registration 2; Registry.GET_getNodeRegistry;
                Scenario.registration 2])))
  = [ {| Registry.nodeId := 2;
         Registry.pubKey := @Crypto.exportPubKey Transparent.subtle 2048%N |};
      {| Registry.nodeId := 2;
         Registry.pubKey := @Crypto.exportPubKey Transparent.subtle 2048%N |} ].
Proof. reflexivity. Qed.

(* ================================================================== *)
(** ** The selection of the circuit *)
(* ================================================================== *)

Section SelectionProperties.
Import JS Registry User Http SelectionFacts.

(** C3. On a directory of at least three entries, a circuit that the
    selection loop returns has exactly three elements, each of them an
    entry of the directory, and no two of them (at different positions of
    the circuit) are the same object. *)
Theorem circuit_validity
    (fuel : nat) (random : nat -> N) (nodes : list Node)
    (circuit : list (option object)) :
  3 <= List.length nodes ->
  select fuel random 0 nodes [] = Some circuit ->
  List.length circuit = 3
  /\ (forall x, In x circuit ->
        exists i node, nth_error nodes i = Some node /\ x = Some (Obj i node))
  /\ (forall i j x y, i <> j ->
        nth_error circuit i = Some x -> nth_error circuit j = Some y ->
        same_value x y = false).
Proof.
  intros Hlen Hsel.
  destruct (select_invariant random nodes
              (fun x => exists i node, nth_error nodes i = Some node /\ x = Some (Obj i node))
              fuel) with (k := 0) (circuit := @nil (option object)) (result := circuit)
    as (Hl & Hnd & Hall).
  - intros k. destruct (drawn_in_range random nodes k) as (i & node & _ & Hn & E); [lia|].
    now exists i, node.
  - exact Hsel.
  - cbn. lia.
  - constructor.
  - constructor.
  - split; [exact Hl|]. split.
    + now apply Forall_forall.
    + intros i j x y Hij Hx Hy.
      destruct (same_value x y) eqn:E; [|reflexivity].
      apply same_value_spec in E. exfalso. apply Hij.
      apply (proj1 (NoDup_nth_error (identities circuit)) Hnd).
      * unfold identities. rewrite length_map. apply nth_error_Some. congruence.
      * unfold identities. rewrite !nth_error_map, Hx, Hy. cbn. now f_equal.
Qed.

Lemma select_stable (random : nat -> N) (nodes : list Node) (fuel fuel' : nat)
    (circuit : list (option object)) :
  fuel <= fuel' ->
  select fuel random 0 nodes [] = Some circuit ->
  select fuel' random 0 nodes [] = Some circuit.
Proof.
  induction 1 as [|m _ IH]; [auto|].
  intros H. now apply select_more_fuel, IH.
Qed.

Context {subtle : WebCrypto.Subtle} {config : Config}.

(** C4. (1) On a directory of at least three entries, the selection loop
    is left as soon as the random indices have hit three different
    entries: from some number of iterations on it returns a circuit.
    (2) On a directory of fewer than three entries the loop is never left,
    whatever the random draws, and [/sendMessage] reports nothing: it runs
    forever, without an event and without a change of state. *)
Theorem selection_terminates_iff_enough_nodes
    (rnd : randomness) (nodes : list Node) :
  (3 <= List.length nodes ->
   forall k1 k2 k3,
     let index k := randomIndex (Math_random rnd k) (N.of_nat (List.length nodes)) in
     index k1 <> index k2 -> index k1 <> index k3 -> index k2 <> index k3 ->
     exists fuel circuit,
       forall fuel', fuel <= fuel' ->
         select fuel' (Math_random rnd) 0 nodes [] = Some circuit)
  /\ (List.length nodes < 3 ->
      forall fuel,
        select fuel (Math_random rnd) 0 nodes [] = None
        /\ forall net st message destinationUserId,
             sendMessage fuel rnd net st message destinationUserId nodes
             = {| final := st; events := []; completion_of := Diverged |}).
Proof.
  split.
  - intros Hlen k1 k2 k3 index H12 H13 H23.
    assert (Hid : forall k,
      option_map address (drawn (Math_random rnd) nodes k) = Some (N.to_nat (index k))).
    { intros k. unfold drawn. fold (index k).
      pose proof (randomIndex_lt (Math_random rnd k) (N.of_nat (List.length nodes))) as Hlt.
      fold (index k) in Hlt.
      destruct (element_in_range nodes (index k)) as (node & _ & E); [lia|].
      now rewrite E. }
    destruct (select_terminates (Math_random rnd) nodes k1 k2 k3) as (circuit & Hsel).
    + rewrite !Hid. intros E. injection E as E. apply N2Nat.inj in E. contradiction.
    + rewrite !Hid. intros E. injection E as E. apply N2Nat.inj in E. contradiction.
    + rewrite !Hid. intros E. injection E as E. apply N2Nat.inj in E. contradiction.
    + exists (S (Nat.max k1 (Nat.max k2 k3))), circuit.
      intros fuel' Hf. now apply (select_stable _ _ _ _ _ Hf).
  - intros Hsmall fuel.
    assert (E : select fuel (Math_random rnd) 0 nodes [] = None).
    { apply select_too_small; [exact Hsmall | constructor | intros a []]. }
    split; [exact E|]. intros net st message destinationUserId.
    unfold sendMessage. now rewrite E.
Qed.

End SelectionProperties.

(** The circuit of the scenario: the entries at the positions 0, 1, 2. *)
Example scenario_circuit :
  User.select 3 Scenario.quarters 0 Scenario.nodes []
  = Some [User.element Scenario.nodes 0; User.element Scenario.nodes 1;
          User.element Scenario.nodes 2].
Proof. reflexivity. Qed.

Lemma circuit_validity_witness :
  List.length
    [User.element Scenario.nodes 0; User.element Scenario.nodes 1;
     User.element Scenario.nodes 2] = 3
  /\ (forall x,
        In x [User.element Scenario.nodes 0; User.element Scenario.nodes 1;
              User.element Scenario.nodes 2] ->
        exists i node,
          nth_error Scenario.nodes i = Some node /\ x = Some (User.Obj i node))
  /\ (forall i j x y, i <> j ->
        nth_error [User.element Scenario.nodes 0; User.element Scenario.nodes 1;
                   User.element Scenario.nodes 2] i = Some x ->
        nth_error [User.element Scenario.nodes 0; User.element Scenario.nodes 1;
                   User.element Scenario.nodes 2] j = Some y ->
        User.same_value x y = false).
Proof.
  apply (circuit_validity 3 Scenario.quarters Scenario.nodes).
  - cbn. lia.
  - reflexivity.
Defined.

Lemma selection_terminates_witness :
  (exists fuel circuit,
     forall fuel', fuel <= fuel' ->
       User.select fuel' Scenario.quarters 0 Scenario.nodes [] = Some circuit)
  /\ (forall fuel,
        User.select fuel Scenario.quarters 0 (firstn 2 Scenario.nodes) [] = None).
Proof.
  split.
  - apply (proj1 (@selection_terminates_iff_enough_nodes
                    Transparent.subtle Transparent.config
                    Scenario.randomness Scenario.nodes)) with (k1 := 0) (k2 := 1) (k3 := 2).
    + cbn. lia.
    + discriminate.
    + discriminate.
    + discriminate.
  - intros fuel.
    apply (proj2 (@selection_terminates_iff_enough_nodes
                    Transparent.subtle Transparent.config
                    Scenario.randomness (firstn 2 Scenario.nodes))).
    cbn. lia.
Defined.

(* ================================================================== *)
(** ** Symmetric encryption *)
(* ================================================================== *)

Section SymmetricProperties.
Import JS JSFacts Base64Facts Text TextFacts WebCrypto Crypto CryptoFacts.
Context {subtle : Subtle}.

(** [symDecrypt] after [symEncrypt] on any plaintext: the plaintext comes
    back as [TextDecoder] reads the bytes of [TextEncoder], that is with
    every unpaired surrogate replaced by U+FFFD and without a leading
    U+FEFF. *)
Lemma symDecrypt_after_symEncrypt_decoded (random : nat -> byte) (key : SecretKey)
    (m : jsstring) :
  exists blob,
    symEncrypt random key m = Some blob
    /\ symDecrypt (exportSymKey key) blob
       = Some (flat_map code_units_of (strip_byte_order_mark (code_points m))).
Proof.
  destruct (symDecrypt_after_symEncrypt random key m) as (blob & He & _ & _ & Hd).
  exists blob. split; [exact He|]. now rewrite Hd, decode_encode_any.
Qed.

(** C5, amended.  For every symmetric key, every initialisation vector
    that [symEncrypt] draws (16 bytes, and every sequence of 16 bytes is
    one) and every plaintext [m]: [symEncrypt] returns the base64 of the
    IV, exactly 24 characters, followed by the base64 of the ciphertext,
    and [symDecrypt] splits at 24 characters and inverts the encryption.
    What [symDecrypt(exportSymKey(k), symEncrypt(k, m))] returns is [m]
    without a leading U+FEFF and with every unpaired surrogate replaced by
    U+FFFD: [m] itself when [m] is well-formed UTF-16 (no unpaired
    surrogate) and does not start with U+FEFF. *)
Theorem symmetric_round_trip (random : nat -> byte) (key : SecretKey) (m : jsstring) :
  let iv := getRandomValues random 16 in
  List.length iv = 16
  /\ (forall iv', List.length iv' = 16 -> exists random', getRandomValues random' 16 = iv')
  /\ exists c,
       encrypt_AES_CBC key iv (Text.encode m) = Some c
       /\ symEncrypt random key m
          = Some (arrayBufferToBase64 iv ++ arrayBufferToBase64 c)
       /\ List.length (arrayBufferToBase64 iv) = 24
       /\ slice_to 24 (arrayBufferToBase64 iv ++ arrayBufferToBase64 c)
          = arrayBufferToBase64 iv
       /\ slice_from 24 (arrayBufferToBase64 iv ++ arrayBufferToBase64 c)
          = arrayBufferToBase64 c
       /\ symDecrypt (exportSymKey key)
            (arrayBufferToBase64 iv ++ arrayBufferToBase64 c)
          = Some (toWellFormed
                    (if starts_with_byte_order_mark m then List.tl m else m))
       /\ (well_formed m = true ->
           starts_with_byte_order_mark m = false ->
           symDecrypt (exportSymKey key)
             (arrayBufferToBase64 iv ++ arrayBufferToBase64 c)
           = Some m).
Proof.
  intros iv. subst iv.
  pose proof (length_getRandomValues random 16) as Hiv.
  split; [exact Hiv|]. split.
  { intros iv' H'. exists (fun i => nth i iv' x00). rewrite <- H'.
    apply getRandomValues_nth. }
  destruct (symEncrypt_blob random key m) as (c & Hc & He & Hd).
  pose proof (length_base64_16 _ Hiv) as Hl.
  fold (arrayBufferToBase64 (getRandomValues random 16)) in Hl.
  exists c. split; [exact Hc|]. split; [exact He|].
  split; [exact Hl|]. split; [now apply slice_to_app|]. split; [now apply slice_from_app|].
  rewrite (symDecrypt_blob _ c key _ Hiv Hd). split.
  - f_equal. apply decode_encode_replaced.
  - intros Hwf Hbom. f_equal. now apply decode_encode.
Qed.


(** Whatever the primitives, an unpaired surrogate does not come back. *)
Lemma symDecrypt_replaces_lone_surrogate (random : nat -> byte) (key : SecretKey) :
  exists blob,
    symEncrypt random key [unit_of 55296] = Some blob
    /\ symDecrypt (exportSymKey key) blob = Some [unit_of 65533].
Proof. apply symDecrypt_after_symEncrypt_decoded. Qed.

(** Whatever the primitives, a leading U+FEFF does not come back. *)
Lemma symDecrypt_drops_byte_order_mark (random : nat -> byte) (key : SecretKey) :
  exists blob,
    symEncrypt random key (unit_of 65279 :: lit "hi") = Some blob
    /\ symDecrypt (exportSymKey key) blob = Some (lit "hi").
Proof. apply symDecrypt_after_symEncrypt_decoded. Qed.

End SymmetricProperties.

Section SymmetricExamples.
Import JS Crypto.

Lemma symmetric_round_trip_witness :
  List.length (getRandomValues (fun _ => x07) 16) = 16
  /\ (forall iv', List.length iv' = 16 -> exists random', getRandomValues random' 16 = iv')
  /\ exists c,
       @WebCrypto.encrypt_AES_CBC Transparent.subtle x41
         (getRandomValues (fun _ => x07) 16) (Text.encode (lit "hello")) = Some c
       /\ @symEncrypt Transparent.subtle (fun _ => x07) x41 (lit "hello")
          = Some (arrayBufferToBase64 (getRandomValues (fun _ => x07) 16)
                  ++ arrayBufferToBase64 c)
       /\ List.length (arrayBufferToBase64 (getRandomValues (fun _ => x07) 16)) = 24
       /\ slice_to 24 (arrayBufferToBase64 (getRandomValues (fun _ => x07) 16)
                       ++ arrayBufferToBase64 c)
          = arrayBufferToBase64 (getRandomValues (fun _ => x07) 16)
       /\ slice_from 24 (arrayBufferToBase64 (getRandomValues (fun _ => x07) 16)
                         ++ arrayBufferToBase64 c)
          = arrayBufferToBase64 c
       /\ @symDecrypt Transparent.subtle (@exportSymKey Transparent.subtle x41)
            (arrayBufferToBase64 (getRandomValues (fun _ => x07) 16)
             ++ arrayBufferToBase64 c)
          = Some (lit "hello").
Proof.
  destruct (@symmetric_round_trip Transparent.subtle (fun _ => x07) x41 (lit "hello"))
    as (H16 & Hall & c & Hc & He & Hl & Hto & Hfrom & _ & Hm).
  split; [exact H16|]. split; [exact Hall|].
  exists c. split; [exact Hc|]. split; [exact He|]. split; [exact Hl|].
  split; [exact Hto|]. split; [exact Hfrom|].
  apply Hm; reflexivity.
Defined.

(** The blob of the plaintext ["hello"] under the key [x41] and the IV of
    sixteen bytes 7. *)
Example symEncrypt_hello :
  @symEncrypt Transparent.subtle (fun _ => x07) x41 (lit "hello")
  = Some (lit "BwcHBwcHBwcHBwcHBwcHBw==QWhlbGxv").
Proof. reflexivity. Qed.

(** C5 as stated fails on a plaintext that is an unpaired surrogate (the
    string of the one code unit D800 comes back as the one code unit
    FFFD) and on a plaintext that starts with U+FEFF (it comes back
    without it). *)
Lemma symmetric_round_trip_lone_surrogate :
  (exists blob,
     @symEncrypt Transparent.subtle (fun _ => x07) x41 [unit_of 55296] = Some blob
     /\ @symDecrypt Transparent.subtle (@exportSymKey Transparent.subtle x41) blob
        = Some [unit_of 65533]
     /\ [unit_of 65533] <> [unit_of 55296])
  /\ (exists blob,
        @symEncrypt Transparent.subtle (fun _ => x07) x41 (unit_of 65279 :: lit "hello")
        = Some blob
        /\ @symDecrypt Transparent.subtle (@exportSymKey Transparent.subtle x41) blob
           = Some (lit "hello")
        /\ lit "hello" <> unit_of 65279 :: lit "hello").
Proof.
  split; eexists; (split; [reflexivity|]); (split; [reflexivity|discriminate]).
Qed.



End SymmetricExamples.

(* ================================================================== *)
(** ** The onion: layers, peeling and forwarding *)
(* ================================================================== *)

Section OnionProperties.
Import JS JSFacts Text TextFacts WebCrypto Crypto CryptoFacts Http OnionFacts.
Context {subtle : Subtle} {config : Config}.



(** C1, amended.  Let the selection loop return the circuit [n0, n1, n2],
    let the routers [r0], [r1], [r2] hold the private keys of the public
    keys of these nodes, and let the ports of the destination user and of
    the nodes [n0] and [n1] be non-negative and of at most ten digits.
    Then for every well-formed message (a string without unpaired
    surrogate), [/sendMessage] posts an onion to the router of [n2]; that
    router peels it to a layer for [r1], [r1] peels that to a layer for
    [r0], and [r0] peels that to exactly the message, which it posts to
    the port of the destination user, whose inbox then holds it. *)
Theorem onion_round_trip
    (fuel : nat) (rnd : User.randomness) (net : network) (st : User.state)
    (message : jsstring) (destinationUserId : Z) (nodes : list Registry.Node)
    (n0 n1 n2 : User.object) (s0 s1 s2 : bytes)
    (r0 r1 r2 : OnionRouter.state) (destination : User.state) :
  User.select fuel (User.Math_random rnd) 0 nodes [] = Some [Some n0; Some n1; Some n2] ->
  OnionRouter.carries_key (User.fields n0) s0 -> OnionRouter.holds_key r0 s0 ->
  OnionRouter.carries_key (User.fields n1) s1 -> OnionRouter.holds_key r1 s1 ->
  OnionRouter.carries_key (User.fields n2) s2 -> OnionRouter.holds_key r2 s2 ->
  (0 <= BASE_USER_PORT + destinationUserId < 10 ^ 10)%Z ->
  (0 <= BASE_ONION_ROUTER_PORT + Registry.nodeId (User.fields n0) < 10 ^ 10)%Z ->
  (0 <= BASE_ONION_ROUTER_PORT + Registry.nodeId (User.fields n1) < 10 ^ 10)%Z ->
  well_formed message = true ->
  exists onion layer1 layer0 answered2 answered0,
    List.hd_error
      (User.events (User.sendMessage fuel rnd net st message destinationUserId nodes))
    = Some (Fetch (Some (Num (BASE_ONION_ROUTER_PORT + Registry.nodeId (User.fields n2))))
                  (Some onion) answered2)
    /\ OnionRouter.lastReceivedDecryptedMessage
         (OnionRouter.final (OnionRouter.message net r2 onion)) = Some layer1
    /\ OnionRouter.lastReceivedDecryptedMessage
         (OnionRouter.final (OnionRouter.message net r1 layer1)) = Some layer0
    /\ OnionRouter.lastReceivedDecryptedMessage
         (OnionRouter.final (OnionRouter.message net r0 layer0)) = Some message
    /\ List.hd_error (OnionRouter.events (OnionRouter.message net r0 layer0))
       = Some (Fetch (Some (Num (BASE_USER_PORT + destinationUserId)))
                     (Some message) answered0)
    /\ User.getLastReceivedMessage (User.final (User.message destination message))
       = Some message.
Proof.
  intros Hsel C0 H0 C1 H1 C2 H2 Pu P0 P1 Hwf.
  destruct (onion_peels rnd net n0 n1 n2 s0 s1 s2 r0 r1 r2 message destinationUserId
              C0 H0 C1 H1 C2 H2 Pu P0 P1)
    as (onion & layer1 & layer0 & Hw & F2 & F1 & F0).
  rewrite (toWellFormed_well_formed _ Hwf) in F0.
  unfold forwards in F2, F1, F0.
  exists onion, layer1, layer0.
  exists (net (Some (Num (BASE_ONION_ROUTER_PORT + Registry.nodeId (User.fields n2))))
              (Some onion)).
  exists (net (Some (Num (BASE_USER_PORT + destinationUserId))) (Some message)).
  rewrite (sendMessage_of_circuit fuel rnd net st message destinationUserId nodes
             n0 n1 n2 onion Hsel Hw).
  rewrite F2, F1, F0. cbn [User.events OnionRouter.events OnionRouter.final
                           OnionRouter.lastReceivedDecryptedMessage].
  split; [reflexivity|]. split; [reflexivity|].
  split; [reflexivity|]. split; [reflexivity|]. split; [reflexivity|].
  unfold User.getLastReceivedMessage, User.message.
  cbn [User.final User.lastReceivedMessages User.userId]. now rewrite Z.eqb_refl.
Qed.

(** C2, amended.  Under the same conditions on the circuit, the keys and
    the ports (each port printed in the onion is non-negative and of at
    most ten digits, as every port on which a node listens is), and for
    every message: [/sendMessage] posts the onion to the port of [n2], the
    first hop; the address that [r2] recovers is the port of [n1], the
    address that [r1] recovers is the port of [n0], and the address that
    [r0], the last hop, recovers is [BASE_USER_PORT + destinationUserId]. *)
Theorem address_fidelity
    (fuel : nat) (rnd : User.randomness) (net : network) (st : User.state)
    (message : jsstring) (destinationUserId : Z) (nodes : list Registry.Node)
    (n0 n1 n2 : User.object) (s0 s1 s2 : bytes)
    (r0 r1 r2 : OnionRouter.state) :
  User.select fuel (User.Math_random rnd) 0 nodes [] = Some [Some n0; Some n1; Some n2] ->
  OnionRouter.carries_key (User.fields n0) s0 -> OnionRouter.holds_key r0 s0 ->
  OnionRouter.carries_key (User.fields n1) s1 -> OnionRouter.holds_key r1 s1 ->
  OnionRouter.carries_key (User.fields n2) s2 -> OnionRouter.holds_key r2 s2 ->
  (0 <= BASE_USER_PORT + destinationUserId < 10 ^ 10)%Z ->
  (0 <= BASE_ONION_ROUTER_PORT + Registry.nodeId (User.fields n0) < 10 ^ 10)%Z ->
  (0 <= BASE_ONION_ROUTER_PORT + Registry.nodeId (User.fields n1) < 10 ^ 10)%Z ->
  exists onion layer1 layer0 answered,
    User.events (User.sendMessage fuel rnd net st message destinationUserId nodes)
    = Fetch (Some (Num (BASE_ONION_ROUTER_PORT + Registry.nodeId (User.fields n2))))
            (Some onion) answered
      :: fst (after_fetch answered)
    /\ User.getLastCircuit
         (User.final (User.sendMessage fuel rnd net st message destinationUserId nodes))
       = Some [Registry.nodeId (User.fields n2); Registry.nodeId (User.fields n1);
               Registry.nodeId (User.fields n0)]
    /\ OnionRouter.lastReceivedDecryptedMessage
         (OnionRouter.final (OnionRouter.message net r2 onion)) = Some layer1
    /\ OnionRouter.lastMessageDestination
         (OnionRouter.final (OnionRouter.message net r2 onion))
       = Some (Num (BASE_ONION_ROUTER_PORT + Registry.nodeId (User.fields n1)))
    /\ OnionRouter.lastReceivedDecryptedMessage
         (OnionRouter.final (OnionRouter.message net r1 layer1)) = Some layer0
    /\ OnionRouter.lastMessageDestination
         (OnionRouter.final (OnionRouter.message net r1 layer1))
       = Some (Num (BASE_ONION_ROUTER_PORT + Registry.nodeId (User.fields n0)))
    /\ OnionRouter.lastMessageDestination
         (OnionRouter.final (OnionRouter.message net r0 layer0))
       = Some (Num (BASE_USER_PORT + destinationUserId)).
Proof.
  intros Hsel C0 H0 C1 H1 C2 H2 Pu P0 P1.
  destruct (onion_peels rnd net n0 n1 n2 s0 s1 s2 r0 r1 r2 message destinationUserId
              C0 H0 C1 H1 C2 H2 Pu P0 P1)
    as (onion & layer1 & layer0 & Hw & F2 & F1 & F0).
  unfold forwards in F2, F1, F0.
  exists onion, layer1, layer0.
  exists (net (Some (Num (BASE_ONION_ROUTER_PORT + Registry.nodeId (User.fields n2))))
              (Some onion)).
  rewrite (sendMessage_of_circuit fuel rnd net st message destinationUserId nodes
             n0 n1 n2 onion Hsel Hw).
  rewrite F2, F1, F0.
  cbn [User.events User.final OnionRouter.final OnionRouter.lastMessageDestination
       OnionRouter.lastReceivedDecryptedMessage].
  repeat split; reflexivity.
Qed.

(** C7, amended.  A router that handles [/message] sends its response
    only after the awaited forward to the next hop has settled, and only
    if it resolved.  The events of a run are: none, when a decryption
    throws; otherwise the forward, followed by the response ["success"]
    when the next hop answered, with whatever status, and by nothing when
    the forward was rejected, in which case the handler throws and the
    caller gets no response. *)
Theorem response_after_forward
    (net : network) (st : OnionRouter.state) (layer : jsstring) :
  let run := OnionRouter.message net st layer in
  (OnionRouter.events run = [] /\ OnionRouter.completion_of run = Threw
   /\ OnionRouter.final run = st)
  \/ (exists port message status,
        net port message = Resolved status
        /\ OnionRouter.events run
           = [Fetch port message (Resolved status); Send (lit "success")]
        /\ OnionRouter.completion_of run = Returned
        /\ response (OnionRouter.events run) = Some (lit "success"))
  \/ (exists port message,
        net port message = Rejected
        /\ OnionRouter.events run = [Fetch port message Rejected]
        /\ OnionRouter.completion_of run = Threw
        /\ response (OnionRouter.events run) = None).
Proof.
  cbv zeta. unfold OnionRouter.message.
  destruct (OnionRouter.decrypt_layer st layer) as [message|]; [|now left].
  right. cbv zeta.
  match goal with
  | |- context [after_fetch (net ?d ?m)] =>
      destruct (net d m) as [status|] eqn:E; [left; exists d, m, status | right; exists d, m]
  end; repeat split; assumption.
Qed.

(** C10. Let the router hold the private key of a pair it generated.  If
    the RSA decryption of the first 344 characters throws, or if it gives
    a symmetric key (a non-empty string, so that [symDecrypt] is called)
    with which the decryption of the rest throws, the handler of
    [/message] ends there: the state of the router, and so each of its
    four introspection fields, is what it was, and no request is
    forwarded. *)
Theorem failed_decryption_changes_nothing
    (net : network) (st : OnionRouter.state) (seed : bytes) (layer : jsstring) :
  OnionRouter.holds_key st seed ->
  rsaDecrypt (slice_to 344 layer) (snd (generateRsaKeyPair seed)) = None
  \/ (exists symKey,
        rsaDecrypt (slice_to 344 layer) (snd (generateRsaKeyPair seed)) = Some symKey
        /\ symKey <> []
        /\ symDecrypt symKey (slice_from 344 layer) = None) ->
  let run := OnionRouter.message net st layer in
  OnionRouter.final run = st
  /\ OnionRouter.lastReceivedEncryptedMessage (OnionRouter.final run)
     = OnionRouter.lastReceivedEncryptedMessage st
  /\ OnionRouter.lastReceivedDecryptedMessage (OnionRouter.final run)
     = OnionRouter.lastReceivedDecryptedMessage st
  /\ OnionRouter.lastMessageSource (OnionRouter.final run)
     = OnionRouter.lastMessageSource st
  /\ OnionRouter.lastMessageDestination (OnionRouter.final run)
     = OnionRouter.lastMessageDestination st
  /\ OnionRouter.events run = []
  /\ OnionRouter.completion_of run = Threw.
Proof.
  intros Hkey Hfail. cbv zeta.
  assert (E : OnionRouter.decrypt_layer st layer = None).
  { unfold OnionRouter.holds_key in Hkey.
    unfold OnionRouter.decrypt_layer. rewrite !Hkey.
    unfold exportPrvKey. rewrite truthy_base64 by apply pkcs8_not_empty.
    cbv beta iota. rewrite (importPrvKey_exportPrvKey _ _ eq_refl).
    destruct Hfail as [Hr|(symKey & Hr & Hne & Hs)]; rewrite Hr; [reflexivity|].
    destruct symKey as [|c symKey]; [congruence|].
    cbn [OnionRouter.truthy]. now rewrite Hs. }
  unfold OnionRouter.message. rewrite E. cbn. repeat split.
Qed.

End OnionProperties.

(* ================================================================== *)
(** ** Runs of the scenario *)
(* ================================================================== *)

Section OnionRuns.
Import JS Http Scenario.






Lemma onion_round_trip_witness :
  exists onion layer1 layer0 answered2 answered0,
    List.hd_error (User.events (sendMessage 3 randomness reliable (User.launch 1)
                                  (lit "hello") 7 nodes))
    = Some (Fetch (Some (Num 4002)) (Some onion) answered2)
    /\ OnionRouter.lastReceivedDecryptedMessage
         (OnionRouter.final (message reliable (router 2) onion)) = Some layer1
    /\ OnionRouter.lastReceivedDecryptedMessage
         (OnionRouter.final (message reliable (router 1) layer1)) = Some layer0
    /\ OnionRouter.lastReceivedDecryptedMessage
         (OnionRouter.final (message reliable (router 0) layer0)) = Some (lit "hello")
    /\ List.hd_error (OnionRouter.events (message reliable (router 0) layer0))
       = Some (Fetch (Some (Num 3007)) (Some (lit "hello")) answered0)
    /\ User.getLastReceivedMessage
         (User.final (User.message (User.launch 7) (lit "hello")))
       = Some (lit "hello").
Proof.
  apply (@onion_round_trip Transparent.subtle Transparent.config
           3 randomness reliable (User.launch 1) (lit "hello") 7 nodes
           n0 n1 n2 [] [] [] (router 0) (router 1) (router 2) (User.launch 7));
    try reflexivity; cbn; lia.
Defined.

Lemma address_fidelity_witness :
  exists onion layer1 layer0 answered,
    User.events (sendMessage 3 randomness reliable (User.launch 1) (lit "hello") 7 nodes)
    = Fetch (Some (Num 4002)) (Some onion) answered
      :: fst (after_fetch answered)
    /\ User.getLastCircuit
         (User.final (sendMessage 3 randomness reliable (User.launch 1) (lit "hello") 7 nodes))
       = Some [2%Z; 1%Z; 0%Z]
    /\ OnionRouter.lastReceivedDecryptedMessage
         (OnionRouter.final (message reliable (router 2) onion)) = Some layer1
    /\ OnionRouter.lastMessageDestination
         (OnionRouter.final (message reliable (router 2) onion)) = Some (Num 4001)
    /\ OnionRouter.lastReceivedDecryptedMessage
         (OnionRouter.final (message reliable (router 1) layer1)) = Some layer0
    /\ OnionRouter.lastMessageDestination
         (OnionRouter.final (message reliable (router 1) layer1)) = Some (Num 4000)
    /\ OnionRouter.lastMessageDestination
         (OnionRouter.final (message reliable (router 0) layer0)) = Some (Num 3007).
Proof.
  apply (@address_fidelity Transparent.subtle Transparent.config
           3 randomness reliable (User.launch 1) (lit "hello") 7 nodes
           n0 n1 n2 [] [] [] (router 0) (router 1) (router 2));
    try reflexivity; cbn; lia.
Defined.

(** C1 as stated fails on a message that is an unpaired surrogate: the
    last hop recovers, and forwards, U+FFFD in its place.  It fails as
    well on a destination whose port has eleven digits: the last hop
    takes the first ten of them for the address and leaves the eleventh
    in front of the message. *)
Lemma onion_round_trip_lone_surrogate :
  (let sent := sendMessage 3 randomness reliable (User.launch 1) [unit_of 55296] 7 nodes in
   let hop1 := message reliable (router 2) (forwarded (User.events sent)) in
   let hop2 := message reliable (router 1) (forwarded (OnionRouter.events hop1)) in
   let hop3 := message reliable (router 0) (forwarded (OnionRouter.events hop2)) in
   User.getLastCircuit (User.final sent) = Some [2%Z; 1%Z; 0%Z]
   /\ User.completion_of sent = Returned
   /\ OnionRouter.lastMessageDestination (OnionRouter.final hop1) = Some (Num 4001)
   /\ OnionRouter.lastMessageDestination (OnionRouter.final hop2) = Some (Num 4000)
   /\ OnionRouter.events hop3
      = [Fetch (Some (Num 3007)) (Some [unit_of 65533]) (Resolved 200);
         Send (lit "success")]
   /\ OnionRouter.lastReceivedDecryptedMessage (OnionRouter.final hop3)
      = Some [unit_of 65533]
   /\ [unit_of 65533] <> [unit_of 55296])
  /\ (let sent := sendMessage 3 randomness reliable (User.launch 1) (lit "hello")
                    9999997000 nodes in
      let hop1 := message reliable (router 2) (forwarded (User.events sent)) in
      let hop2 := message reliable (router 1) (forwarded (OnionRouter.events hop1)) in
      let hop3 := message reliable (router 0) (forwarded (OnionRouter.events hop2)) in
      User.completion_of sent = Returned
      /\ OnionRouter.lastReceivedDecryptedMessage (OnionRouter.final hop3)
         = Some (lit "0hello")
      /\ lit "0hello" <> lit "hello").
Proof. vm_compute. repeat split; discriminate. Qed.

(** C2 as stated fails on a destination whose port has eleven digits:
    with [BASE_USER_PORT = 3000] and [destinationUserId = 9999997000] the
    port is 10000000000, [padStart] leaves its eleven characters, and the
    last hop reads the first ten of them, the address 1000000000.  It
    fails as well on a negative port: for [destinationUserId = -5000] the
    onion carries ["00000-2000"], which [parseInt] reads as 0. *)
Lemma address_fidelity_eleven_digits :
  (let sent := sendMessage 3 randomness reliable (User.launch 1) (lit "hello")
                 9999997000 nodes in
   let hop1 := message reliable (router 2) (forwarded (User.events sent)) in
   let hop2 := message reliable (router 1) (forwarded (OnionRouter.events hop1)) in
   let hop3 := message reliable (router 0) (forwarded (OnionRouter.events hop2)) in
   User.getLastCircuit (User.final sent) = Some [2%Z; 1%Z; 0%Z]
   /\ User.completion_of sent = Returned
   /\ OnionRouter.lastMessageDestination (OnionRouter.final hop1) = Some (Num 4001)
   /\ OnionRouter.lastMessageDestination (OnionRouter.final hop2) = Some (Num 4000)
   /\ OnionRouter.lastMessageDestination (OnionRouter.final hop3)
      = Some (Num 1000000000)
   /\ (@BASE_USER_PORT Transparent.config + 9999997000 = 10000000000)%Z
   /\ Num 1000000000 <> Num 10000000000)
  /\ (let sent := sendMessage 3 randomness reliable (User.launch 1) (lit "hello")
                    (-5000) nodes in
      let hop1 := message reliable (router 2) (forwarded (User.events sent)) in
      let hop2 := message reliable (router 1) (forwarded (OnionRouter.events hop1)) in
      let hop3 := message reliable (router 0) (forwarded (OnionRouter.events hop2)) in
      User.completion_of sent = Returned
      /\ OnionRouter.lastMessageDestination (OnionRouter.final hop3) = Some (Num 0)
      /\ (@BASE_USER_PORT Transparent.config + -5000 = -2000)%Z
      /\ Num 0 <> Num (-2000)).
Proof. vm_compute. repeat split; discriminate. Qed.

(** C7 as stated fails: the response follows the settled forward.  When
    the next hop answers, even with the status 500, the caller gets
    ["success"]; when the next hop does not answer, the handler throws
    before [res.send] and the caller gets no response. *)
Lemma response_depends_on_forward :
  let sent := sendMessage 3 randomness reliable (User.launch 1) (lit "hello") 7 nodes in
  let onion := forwarded (User.events sent) in
  let layer1 := forwarded (OnionRouter.events (message reliable (router 2) onion)) in
  OnionRouter.events (message reliable (router 2) onion)
  = [Fetch (Some (Num 4001)) (Some layer1) (Resolved 200); Send (lit "success")]
  /\ OnionRouter.events (message failing (router 2) onion)
     = [Fetch (Some (Num 4001)) (Some layer1) (Resolved 500); Send (lit "success")]
  /\ OnionRouter.events (message unreachable (router 2) onion)
     = [Fetch (Some (Num 4001)) (Some layer1) Rejected]
  /\ OnionRouter.completion_of (message unreachable (router 2) onion) = Threw
  /\ response (OnionRouter.events (message reliable (router 2) onion))
     = Some (lit "success")
  /\ response (OnionRouter.events (message unreachable (router 2) onion)) = None.
Proof. vm_compute. repeat split. Qed.

Lemma failed_decryption_changes_nothing_witness :
  let run := message reliable (router 2) (lit "not an onion") in
  OnionRouter.final run = router 2
  /\ OnionRouter.lastReceivedEncryptedMessage (OnionRouter.final run)
     = OnionRouter.lastReceivedEncryptedMessage (router 2)
  /\ OnionRouter.lastReceivedDecryptedMessage (OnionRouter.final run)
     = OnionRouter.lastReceivedDecryptedMessage (router 2)
  /\ OnionRouter.lastMessageSource (OnionRouter.final run)
     = OnionRouter.lastMessageSource (router 2)
  /\ OnionRouter.lastMessageDestination (OnionRouter.final run)
     = OnionRouter.lastMessageDestination (router 2)
  /\ OnionRouter.events run = []
  /\ OnionRouter.completion_of run = Threw.
Proof.
  apply (@failed_decryption_changes_nothing Transparent.subtle reliable (router 2)
           [] (lit "not an onion")).
  - reflexivity.
  - left. reflexivity.
Defined.

(** A second run of C10: the key decrypts, the payload does not. *)
Example failed_symmetric_decryption :
  let layer := forwarded (User.events
                 (sendMessage 3 randomness reliable (User.launch 1) (lit "hello") 7 nodes)) in
  let damaged := slice_to 344 layer ++ lit "damaged" in
  @Crypto.rsaDecrypt Transparent.subtle (slice_to 344 damaged) 2048%N
  = Some (@Crypto.exportSymKey Transparent.subtle x43)
  /\ @Crypto.symDecrypt Transparent.subtle
       (@Crypto.exportSymKey Transparent.subtle x43) (slice_from 344 damaged) = None
  /\ message reliable (router 2) damaged
     = {| OnionRouter.final := router 2;
          OnionRouter.events := [];
          OnionRouter.completion_of := Threw |}.
Proof. vm_compute. repeat split. Qed.

(** Outside the premise of C10: a first part that decrypts to the empty
    key is no failure.  The symmetric decryption is skipped, [message] is
    [null], the fields are overwritten and a request to the port [null]
    is attempted. *)
Example empty_symmetric_key :
  let layer :=
    Crypto.arrayBufferToBase64 (List.repeat x00 255 ++ [x01]) ++ lit "anything" in
  @OnionRouter.decrypt_layer Transparent.subtle (router 2) layer = Some None
  /\ message unreachable (router 2) layer
     = {| OnionRouter.final :=
            {| OnionRouter.nodeId := 2;
               OnionRouter.privateKey := OnionRouter.privateKey (router 2);
               OnionRouter.lastMessageSource := Some 2%Z;
               OnionRouter.lastMessageDestination := None;
               OnionRouter.lastReceivedEncryptedMessage := Some layer;
               OnionRouter.lastReceivedDecryptedMessage := None |};
          OnionRouter.events := [Fetch None None Rejected];
          OnionRouter.completion_of := Threw |}.
Proof. vm_compute. repeat split. Qed.

End OnionRuns.

(* ================================================================== *)
(** ** Further properties of [crypto.ts] *)
(* ================================================================== *)

Section CryptoMore.
Import JS JSFacts Base64Facts Text TextFacts WebCrypto Crypto CryptoFacts.
Context {subtle : Subtle}.

(** X1. [base64ToArrayBuffer] reads back every buffer that
    [arrayBufferToBase64] wrote; the string written has four characters
    for every three bytes, the last group padded, and only ASCII
    characters. *)
Theorem base64_round_trip (buffer : bytes) :
  base64ToArrayBuffer (arrayBufferToBase64 buffer) = buffer
  /\ List.length (arrayBufferToBase64 buffer) = 4 * ((List.length buffer + 2) / 3)
  /\ ascii (arrayBufferToBase64 buffer).
Proof.
  split; [apply from_base64_toString|].
  split; [apply length_toString_base64 | apply ascii_base64].
Qed.

(** X2. The exported keys import back: a public key through
    [exportPubKey] and [importPubKey], a private key through
    [exportPrvKey] and [importPrvKey] (the exported string is not empty),
    a symmetric key through [exportSymKey] and [importSymKey]; and
    [exportPrvKey(null)] is [null]. *)
Theorem exported_keys_import_back
    (publicKey : PublicKey) (privateKey : PrivateKey) (symKey : SecretKey) :
  importPubKey (exportPubKey publicKey) = Some publicKey
  /\ (exists strKey,
        exportPrvKey (Some privateKey) = Some strKey
        /\ strKey <> []
        /\ importPrvKey strKey = Some privateKey)
  /\ exportPrvKey None = None
  /\ importSymKey (exportSymKey symKey) = Some symKey.
Proof.
  split; [apply importPubKey_exportPubKey|]. split.
  - exists (arrayBufferToBase64 (exportKey_pkcs8 privateKey)).
    split; [reflexivity|]. split.
    + apply base64_not_empty, pkcs8_not_empty.
    + now apply importPrvKey_exportPrvKey.
  - split; [reflexivity | apply importSymKey_exportSymKey].
Qed.

(** X3. For a key pair of [generateRsaKeyPair] and a string that
    [base64ToArrayBuffer] decodes to at most 190 bytes (it reads every
    code unit by its low byte, skips what is outside the alphabet and
    stops at the first [=]), [rsaEncrypt] returns a string of 344
    characters from which [rsaDecrypt] returns the base64 of the decoded
    data: the data itself when it was written by [arrayBufferToBase64],
    its canonical form otherwise. *)
Theorem rsa_round_trip (seed seed' : bytes) (b64Data : jsstring) :
  List.length (base64ToArrayBuffer b64Data) <= 190 ->
  exists encrypted,
    rsaEncrypt seed' b64Data (exportPubKey (fst (generateRsaKeyPair seed)))
    = Some encrypted
    /\ List.length encrypted = 344
    /\ rsaDecrypt encrypted (snd (generateRsaKeyPair seed))
       = Some (arrayBufferToBase64 (base64ToArrayBuffer b64Data))
    /\ (forall data, b64Data = arrayBufferToBase64 data ->
          rsaDecrypt encrypted (snd (generateRsaKeyPair seed)) = Some b64Data).
Proof.
  intros Hlen. unfold rsaEncrypt, rsaDecrypt. rewrite importPubKey_exportPubKey.
  unfold generateRsaKeyPair.
  destruct (RSA_OAEP_correct 2048 seed seed' (base64ToArrayBuffer b64Data))
    as (c & Hc & Hl & Hd).
  { reflexivity. }
  { change (2048 / 8)%N with 256%N. lia. }
  exists (arrayBufferToBase64 c). rewrite Hc. split; [reflexivity|].
  change (2048 / 8)%N with 256%N in Hl.
  unfold base64ToArrayBuffer at 1 2, arrayBufferToBase64 at 1 3.
  rewrite !from_base64_toString, Hd. split.
  - apply length_base64_256. lia.
  - split; [reflexivity|]. intros data ->.
    unfold base64ToArrayBuffer, arrayBufferToBase64. now rewrite from_base64_toString.
Qed.

End CryptoMore.

Lemma rsa_round_trip_witness :
  exists encrypted,
    @Crypto.rsaEncrypt Transparent.subtle [] (JS.lit "QQ")
      (@Crypto.exportPubKey Transparent.subtle 2048%N) = Some encrypted
    /\ List.length encrypted = 344
    /\ @Crypto.rsaDecrypt Transparent.subtle encrypted 2048%N
       = Some (Crypto.arrayBufferToBase64 (Crypto.base64ToArrayBuffer (JS.lit "QQ")))
    /\ (forall data, JS.lit "QQ" = Crypto.arrayBufferToBase64 data ->
          @Crypto.rsaDecrypt Transparent.subtle encrypted 2048%N = Some (JS.lit "QQ")).
Proof.
  apply (@rsa_round_trip Transparent.subtle [] [] (JS.lit "QQ")).
  cbn. lia.
Defined.

(** Data that decodes to more than 190 bytes is not encrypted: 300 code
    units U+0141 are read as 300 characters [A], that is 225 bytes, and
    [rsaEncrypt] throws. *)
Example rsaEncrypt_too_long :
  List.length (Crypto.base64ToArrayBuffer (List.repeat (JS.unit_of 321) 300)) = 225
  /\ @Crypto.rsaEncrypt Transparent.subtle [] (List.repeat (JS.unit_of 321) 300)
       (@Crypto.exportPubKey Transparent.subtle 2048%N) = None.
Proof. split; vm_compute; reflexivity. Qed.

(** Data without its padding comes back with it. *)
Example rsa_round_trip_unpadded :
  Crypto.arrayBufferToBase64 (Crypto.base64ToArrayBuffer (JS.lit "QQ")) = JS.lit "QQ==".
Proof. reflexivity. Qed.

(* ================================================================== *)
(** ** Further properties of the registry *)
(* ================================================================== *)

Section RegistryMore.
Import JS Registry RegistryFacts.

Lemma run_length (reqs : list request) : forall st,
  List.length (snd (run st reqs)) = List.length reqs.
Proof.
  induction reqs as [|req rest IH]; intros st; [reflexivity|].
  cbn [run]. destruct (handle st req) as [st' r].
  specialize (IH st'). destruct (run st' rest) as [st'' rs]. cbn in *. now rewrite IH.
Qed.

Lemma run_keeps_slot (reqs : list request) : forall st,
  lastReceivedEncryptedMessage (fst (run st reqs)) = lastReceivedEncryptedMessage st.
Proof.
  induction reqs as [|req rest IH]; intros st; [reflexivity|].
  cbn [run]. destruct (handle st req) as [st' r] eqn:E.
  specialize (IH st'). destruct (run st' rest) as [st'' rs]. cbn [fst] in *.
  rewrite IH. destruct req; cbn in E; injection E as <- _; reflexivity.
Qed.

Lemma run_reads (reqs : list request) : forall st,
  registered reqs = [] -> fst (run st reqs) = st.
Proof.
  induction reqs as [|req rest IH]; intros st Hr; [reflexivity|].
  destruct req; cbn [registered] in Hr; try discriminate;
    cbn [run handle]; specialize (IH st Hr);
    destruct (run st rest) as [st'' rs]; exact IH.
Qed.

(** X4. The registry answers every request, and only [/registerNode]
    changes its state: a sequence of requests without a registration
    leaves the state as it was, and [lastReceivedEncryptedMessage] is
    never written, so that the registry launched answers
    [{ result: null }] to [/getLastReceivedEncryptedMessage] after any
    requests. *)
Theorem registry_reads_change_nothing (st : state) (reqs : list request) :
  List.length (snd (run st reqs)) = List.length reqs
  /\ (registered reqs = [] -> fst (run st reqs) = st)
  /\ lastReceivedEncryptedMessage (fst (run st reqs)) = lastReceivedEncryptedMessage st
  /\ snd (handle (fst (run launchRegistry reqs)) GET_getLastReceivedEncryptedMessage)
     = json_message None.
Proof.
  split; [apply run_length|]. split; [apply run_reads|].
  split; [apply run_keeps_slot|].
  cbn [handle snd]. now rewrite run_keeps_slot.
Qed.

End RegistryMore.

Lemma registry_reads_change_nothing_witness :
  List.length (snd (Registry.run Scenario.registry
                      [Registry.GET_status; Registry.GET_getNodeRegistry]))
  = 2
  /\ fst (Registry.run Scenario.registry
            [Registry.GET_status; Registry.GET_getNodeRegistry])
     = Scenario.registry
  /\ Registry.lastReceivedEncryptedMessage
       (fst (Registry.run Scenario.registry
               [Registry.GET_status; Registry.GET_getNodeRegistry]))
     = Registry.lastReceivedEncryptedMessage Scenario.registry
  /\ snd (Registry.handle
            (fst (Registry.run Registry.launchRegistry
                    [Registry.GET_status; Registry.GET_getNodeRegistry]))
            Registry.GET_getLastReceivedEncryptedMessage)
     = Registry.json_message None.
Proof.
  destruct (registry_reads_change_nothing Scenario.registry
              [Registry.GET_status; Registry.GET_getNodeRegistry])
    as (H1 & H2 & H3 & _).
  destruct (registry_reads_change_nothing Registry.launchRegistry
              [Registry.GET_status; Registry.GET_getNodeRegistry])
    as (_ & _ & _ & H4).
  split; [exact H1|]. split; [exact (H2 eq_refl)|]. split; [exact H3 | exact H4].
Defined.

(* ================================================================== *)
(** ** Further properties of the router *)
(* ================================================================== *)

Section RouterMore.
Import JS JSFacts Text WebCrypto Crypto CryptoFacts Http Reply OnionFacts SelectionFacts.
Context {subtle : Subtle} {config : Config}.


Lemma message_keeps_key (net : network) (st : OnionRouter.state) (layer : jsstring) :
  OnionRouter.nodeId (OnionRouter.final (OnionRouter.message net st layer))
  = OnionRouter.nodeId st
  /\ OnionRouter.privateKey (OnionRouter.final (OnionRouter.message net st layer))
     = OnionRouter.privateKey st.
Proof.
  unfold OnionRouter.message.
  destruct (OnionRouter.decrypt_layer st layer); split; reflexivity.
Qed.

Lemma handle_keeps_key (st : OnionRouter.state) (req : RouterRoutes.request) :
  OnionRouter.nodeId (fst (RouterRoutes.handle st req)) = OnionRouter.nodeId st
  /\ OnionRouter.privateKey (fst (RouterRoutes.handle st req))
     = OnionRouter.privateKey st.
Proof.
  destruct req as [| | | | |[nodes|] random fuel|layer net];
    cbn [RouterRoutes.handle fst]; try (split; reflexivity).
  - unfold RouterRoutes.sendMessage.
    destruct (User.select fuel random 0 nodes []); split; reflexivity.
  - apply message_keeps_key.
Qed.

Lemma handle_reads (st : OnionRouter.state) (req : RouterRoutes.request) :
  (forall layer net, req <> RouterRoutes.POST_message layer net) ->
  fst (RouterRoutes.handle st req) = st.
Proof.
  intros H. destruct req as [| | | | |[nodes|] random fuel|layer net];
    cbn [RouterRoutes.handle fst]; try reflexivity.
  - unfold RouterRoutes.sendMessage.
    destruct (User.select fuel random 0 nodes []); reflexivity.
  - now elim (H layer net).
Qed.

Lemma router_run_keeps_key (reqs : list RouterRoutes.request) : forall st,
  OnionRouter.nodeId (fst (RouterRoutes.run st reqs)) = OnionRouter.nodeId st
  /\ OnionRouter.privateKey (fst (RouterRoutes.run st reqs)) = OnionRouter.privateKey st.
Proof.
  induction reqs as [|req rest IH]; intros st; [split; reflexivity|].
  cbn [RouterRoutes.run].
  pose proof (handle_keeps_key st req) as [H1 H2].
  destruct (RouterRoutes.handle st req) as [st' r]. cbn [fst] in *.
  destruct (IH st') as [I1 I2].
  destruct (RouterRoutes.run st' rest) as [st'' rs]. cbn [fst] in *.
  split; congruence.
Qed.

Lemma router_run_holds_key (reqs : list RouterRoutes.request)
    (st : OnionRouter.state) (seed : bytes) :
  OnionRouter.holds_key st seed ->
  OnionRouter.holds_key (fst (RouterRoutes.run st reqs)) seed.
Proof.
  intros H. destruct (router_run_keeps_key reqs st) as [_ K].
  unfold OnionRouter.holds_key in *. now rewrite K.
Qed.

(** X6. Whatever requests a router serves, its identifier and its private
    key stay what they were, so that a router that holds the key of a
    pair keeps holding it; and no route other than [/message] changes
    anything of its state. *)
Theorem router_keeps_its_key (st : OnionRouter.state) (reqs : list RouterRoutes.request) :
  OnionRouter.nodeId (fst (RouterRoutes.run st reqs)) = OnionRouter.nodeId st
  /\ OnionRouter.privateKey (fst (RouterRoutes.run st reqs)) = OnionRouter.privateKey st
  /\ (forall seed, OnionRouter.holds_key st seed ->
        OnionRouter.holds_key (fst (RouterRoutes.run st reqs)) seed)
  /\ ((forall layer net, ~ In (RouterRoutes.POST_message layer net) reqs) ->
      fst (RouterRoutes.run st reqs) = st).
Proof.
  destruct (router_run_keeps_key reqs st) as [K1 K2].
  split; [exact K1|]. split; [exact K2|]. split.
  - intros seed. apply router_run_holds_key.
  - clear. revert st. induction reqs as [|req rest IH]; intros st H; [reflexivity|].
    cbn [RouterRoutes.run].
    assert (Hreq : fst (RouterRoutes.handle st req) = st).
    { apply handle_reads. intros layer net ->. apply (H layer net). now left. }
    destruct (RouterRoutes.handle st req) as [st' r]. cbn [fst] in Hreq. subst st'.
    assert (Hrest : fst (RouterRoutes.run st rest) = st).
    { apply IH. intros layer net Hin. apply (H layer net). now right. }
    destruct (RouterRoutes.run st rest) as [st'' rs]. exact Hrest.
Qed.

(** X7. A router that starts holds the private key of the public key it
    registers: its registration carries its identifier, and a symmetric
    key that [rsaEncrypt] encrypts for the registered [pubKey] is what
    [rsaDecrypt] returns with the key imported from [/getPrivateKey]. *)
Theorem router_registers_its_key (nodeId : Z) (seed seed' : bytes) (symKey : SecretKey) :
  let router := fst (OnionRouter.simpleOnionRouter nodeId seed) in
  exists node strKey prvKey encrypted,
    snd (OnionRouter.simpleOnionRouter nodeId seed) = Registry.POST_registerNode node
    /\ Registry.nodeId node = nodeId
    /\ OnionRouter.nodeId router = nodeId
    /\ OnionRouter.getPrivateKey router = Some strKey
    /\ importPrvKey strKey = Some prvKey
    /\ rsaEncrypt seed' (exportSymKey symKey) (Registry.pubKey node) = Some encrypted
    /\ rsaDecrypt encrypted prvKey = Some (exportSymKey symKey).
Proof.
  cbv zeta.
  destruct (rsaDecrypt_rsaEncrypt seed seed' symKey) as (e & He & _ & _ & _ & Hd).
  eexists. exists (arrayBufferToBase64 (exportKey_pkcs8 (snd (generateRsaKeyPair seed)))).
  exists (snd (generateRsaKeyPair seed)), e.
  split; [reflexivity|]. split; [reflexivity|]. split; [reflexivity|].
  split; [reflexivity|]. split; [now apply importPrvKey_exportPrvKey|].
  split; [exact He | exact Hd].
Qed.

(** X8. A first part that decrypts to the empty key, or a rest that
    decrypts to the empty string, is no failure of the decryption: the
    handler of [/message] goes on to the assignments, records the payload
    and sets the decrypted message and the destination to [null].  Its
    request then goes to the port [null]; no network answers that request
    (the URL [http://localhost:null/message] is invalid), so the handler
    throws at the [await], after the assignments, and its caller gets no
    response. *)
Theorem router_records_null
    (net : network) (st : OnionRouter.state) (seed : bytes) (layer : jsstring) :
  OnionRouter.holds_key st seed ->
  rsaDecrypt (slice_to 344 layer) (snd (generateRsaKeyPair seed)) = Some []
  \/ (exists symKey,
        rsaDecrypt (slice_to 344 layer) (snd (generateRsaKeyPair seed)) = Some symKey
        /\ symKey <> []
        /\ symDecrypt symKey (slice_from 344 layer) = Some []) ->
  net None None = Rejected ->
  let run := OnionRouter.message net st layer in
  run
  = {| OnionRouter.final :=
         {| OnionRouter.nodeId := OnionRouter.nodeId st;
            OnionRouter.privateKey := OnionRouter.privateKey st;
            OnionRouter.lastMessageSource := Some (OnionRouter.nodeId st);
            OnionRouter.lastMessageDestination := None;
            OnionRouter.lastReceivedEncryptedMessage := Some layer;
            OnionRouter.lastReceivedDecryptedMessage := None |};
       OnionRouter.events := [Fetch None None Rejected];
       OnionRouter.completion_of := Threw |}
  /\ OnionRouter.completion_of run = Threw
  /\ response (OnionRouter.events run) = None
  /\ snd (RouterRoutes.handle st (RouterRoutes.POST_message layer net)) = none
  /\ snd (RouterRoutes.handle (OnionRouter.final run)
            RouterRoutes.GET_getLastReceivedEncryptedMessage)
     = json_string (Some layer)
  /\ snd (RouterRoutes.handle (OnionRouter.final run)
            RouterRoutes.GET_getLastReceivedDecryptedMessage)
     = json_string None
  /\ snd (RouterRoutes.handle (OnionRouter.final run)
            RouterRoutes.GET_getLastMessageDestination)
     = json_number None.
Proof.
  intros Hkey Hcase Hnet.
  assert (E : OnionRouter.decrypt_layer st layer = Some None
              \/ OnionRouter.decrypt_layer st layer = Some (Some [])).
  { unfold OnionRouter.holds_key in Hkey.
    unfold OnionRouter.decrypt_layer. rewrite !Hkey.
    unfold exportPrvKey. rewrite truthy_base64 by apply pkcs8_not_empty.
    cbv beta iota. rewrite (importPrvKey_exportPrvKey _ _ eq_refl).
    destruct Hcase as [Hr|(symKey & Hr & Hne & Hs)]; rewrite Hr.
    - now left.
    - right. destruct symKey as [|c symKey]; [congruence|].
      cbn [OnionRouter.truthy]. now rewrite Hs. }
  assert (R : OnionRouter.message net st layer
              = {| OnionRouter.final :=
                     {| OnionRouter.nodeId := OnionRouter.nodeId st;
                        OnionRouter.privateKey := OnionRouter.privateKey st;
                        OnionRouter.lastMessageSource := Some (OnionRouter.nodeId st);
                        OnionRouter.lastMessageDestination := None;
                        OnionRouter.lastReceivedEncryptedMessage := Some layer;
                        OnionRouter.lastReceivedDecryptedMessage := None |};
                   OnionRouter.events := [Fetch None None Rejected];
                   OnionRouter.completion_of := Threw |}).
  { unfold OnionRouter.message.
    destruct E as [E|E]; rewrite E; cbn [OnionRouter.truthy]; cbv zeta;
      rewrite Hnet; reflexivity. }
  cbv zeta. cbn [RouterRoutes.handle snd]. rewrite R. repeat split.
Qed.

(** X9. A message that a router handles without throwing overwrites its
    four fields: the state after it does not depend on what the fields
    held before. *)
Theorem router_fields_overwritten
    (net : network) (st st' : OnionRouter.state) (layer : jsstring) :
  OnionRouter.nodeId st = OnionRouter.nodeId st' ->
  OnionRouter.privateKey st = OnionRouter.privateKey st' ->
  OnionRouter.decrypt_layer st layer <> None ->
  OnionRouter.message net st layer = OnionRouter.message net st' layer.
Proof.
  intros Hid Hkey Hd.
  assert (E : OnionRouter.decrypt_layer st' layer = OnionRouter.decrypt_layer st layer).
  { unfold OnionRouter.decrypt_layer. now rewrite Hkey. }
  unfold OnionRouter.message. rewrite E.
  destruct (OnionRouter.decrypt_layer st layer) as [message|]; [|congruence].
  now rewrite Hid, Hkey.
Qed.

End RouterMore.

(* ================================================================== *)
(** ** Further properties of the user *)
(* ================================================================== *)

Section UserMore.
Import JS JSFacts Text WebCrypto Crypto CryptoFacts Http Reply OnionFacts SelectionFacts.
Context {subtle : Subtle} {config : Config}.

Lemma sendMessage_keeps_inbox (fuel : nat) (rnd : User.randomness) (net : network)
    (st : User.state) (message : jsstring) (destinationUserId : Z)
    (nodes : list Registry.Node) :
  User.userId (User.final (User.sendMessage fuel rnd net st message destinationUserId nodes))
  = User.userId st
  /\ User.lastReceivedMessages
       (User.final (User.sendMessage fuel rnd net st message destinationUserId nodes))
     = User.lastReceivedMessages st.
Proof.
  unfold User.sendMessage.
  destruct (User.select fuel (User.Math_random rnd) 0 nodes []) as [circuit|];
    [|split; reflexivity].
  cbv zeta.
  destruct (User.wrap rnd 0 circuit _ message) as [messageToSend|];
    [|split; reflexivity].
  destruct (rev circuit) as [|[entryNode|] rest]; split; reflexivity.
Qed.

Lemma user_handle_inbox (st : User.state) (req : UserRoutes.request) :
  User.userId (fst (UserRoutes.handle st req)) = User.userId st
  /\ User.getLastReceivedMessage (fst (UserRoutes.handle st req))
     = UserRoutes.last_message (User.getLastReceivedMessage st) [req]
  /\ forall k, k <> User.userId st ->
       User.lastReceivedMessages (fst (UserRoutes.handle st req)) k
       = User.lastReceivedMessages st k.
Proof.
  destruct req; cbn [UserRoutes.handle fst UserRoutes.last_message];
    try (repeat split; reflexivity).
  - split; [reflexivity|]. split.
    + unfold User.getLastReceivedMessage. cbn. now rewrite Z.eqb_refl.
    + intros k Hk. cbn. apply Z.eqb_neq in Hk. now rewrite Hk.
  - unfold UserRoutes.sendMessage.
    destruct listing as [nodes|]; [|repeat split; reflexivity].
    destruct (sendMessage_keeps_inbox fuel rnd net st message destinationUserId nodes)
      as [H1 H2].
    split; [exact H1|]. unfold User.getLastReceivedMessage.
    rewrite H1, H2. split; reflexivity.
Qed.

(** X10. The inbox of a user holds the message of the last [/message]
    request: after any requests, [/getLastReceivedMessage] answers the
    message of the most recent [POST /message], and what it answered
    before when there was none; no request changes the identifier of the
    user or the slot of another identifier, and [/sendMessage] never
    touches the inbox. *)
Theorem inbox_holds_last_message (st : User.state) (reqs : list UserRoutes.request) :
  User.getLastReceivedMessage (fst (UserRoutes.run st reqs))
  = UserRoutes.last_message (User.getLastReceivedMessage st) reqs
  /\ User.userId (fst (UserRoutes.run st reqs)) = User.userId st
  /\ forall k, k <> User.userId st ->
       User.lastReceivedMessages (fst (UserRoutes.run st reqs)) k
       = User.lastReceivedMessages st k.
Proof.
  revert st. induction reqs as [|req rest IH]; intros st; [repeat split|].
  cbn [UserRoutes.run].
  destruct (user_handle_inbox st req) as (H1 & H2 & H3).
  destruct (UserRoutes.handle st req) as [st' r]. cbn [fst] in *.
  destruct (IH st') as (I1 & I2 & I3).
  destruct (UserRoutes.run st' rest) as [st'' rs]. cbn [fst] in *.
  split; [|split].
  - rewrite I1, H2. now destruct req.
  - congruence.
  - intros k Hk. rewrite I3 by congruence. now apply H3.
Qed.

Lemma wrap_defined (rnd : User.randomness) (circuit : list (option User.object)) :
  forall i destination messageToSend onion,
    User.wrap rnd i circuit destination messageToSend = Some onion ->
    Forall (fun x => x <> None) circuit.
Proof.
  induction circuit as [|x rest IH]; intros i destination messageToSend onion H;
    [constructor|].
  cbn [User.wrap] in H. cbv zeta in H.
  destruct x as [node|]; [|discriminate].
  destruct (symEncrypt _ _ _) as [encryptedMessage|]; [|discriminate].
  destruct (rsaEncrypt _ _ _) as [encryptedSymKey|]; [|discriminate].
  constructor; [discriminate | now apply IH in H].
Qed.

(** The encryption loop throws at a node whose public key cannot be
    imported. *)
Lemma wrap_unimportable (rnd : User.randomness) (node : User.object)
    (circuit : list (option User.object)) :
  In (Some node) circuit ->
  importPubKey (Registry.pubKey (User.fields node)) = None ->
  forall i destination messageToSend,
    User.wrap rnd i circuit destination messageToSend = None.
Proof.
  intros Hin Hkey. induction circuit as [|x rest IH]; [destruct Hin|].
  intros i destination messageToSend. cbn [User.wrap]. cbv zeta.
  destruct x as [node'|]; [|reflexivity].
  destruct (symEncrypt _ _ _) as [encryptedMessage|]; [|reflexivity].
  destruct Hin as [E|Hin].
  - injection E as ->. unfold rsaEncrypt. now rewrite Hkey.
  - destruct (rsaEncrypt _ _ _) as [encryptedSymKey|]; [|reflexivity].
    now apply IH.
Qed.

Lemma select_three (fuel : nat) (random : nat -> N) (nodes : list Registry.Node)
    (circuit : list (option User.object)) :
  User.select fuel random 0 nodes [] = Some circuit -> List.length circuit = 3.
Proof.
  intros H.
  destruct (select_invariant random nodes (fun _ => True) fuel (fun _ => I)
              0 [] circuit H) as (Hl & _); [cbn; lia | constructor | constructor |].
  exact Hl.
Qed.

Lemma select_needs_three (fuel : nat) (random : nat -> N) (nodes : list Registry.Node)
    (circuit : list (option User.object)) :
  User.select fuel random 0 nodes [] = Some circuit -> 3 <= List.length nodes.
Proof.
  intros H. destruct (Nat.lt_ge_cases (List.length nodes) 3) as [Hlt|Hge]; [|exact Hge].
  rewrite (select_too_small random nodes fuel Hlt 0 []) in H;
    [discriminate | constructor | intros a []].
Qed.

(** X11. [/sendMessage] records the message before it encrypts it: when
    the public key of a node of the circuit cannot be imported, the
    handler throws without any request sent and without a response, the
    circuit of [/getLastCircuit] is the one of the send before, and yet
    [/getLastSentMessage] answers the message that was not sent. *)
Theorem sendMessage_unimportable_key
    (fuel : nat) (rnd : User.randomness) (net : network) (st : User.state)
    (message : jsstring) (destinationUserId : Z) (nodes : list Registry.Node)
    (circuit : list (option User.object)) (node : User.object) :
  User.select fuel (User.Math_random rnd) 0 nodes [] = Some circuit ->
  In (Some node) circuit ->
  importPubKey (Registry.pubKey (User.fields node)) = None ->
  let run := User.sendMessage fuel rnd net st message destinationUserId nodes in
  User.events run = []
  /\ User.completion_of run = Threw
  /\ response (User.events run) = None
  /\ User.getLastSentMessage (User.final run) = Some message
  /\ User.lastCircuit (User.final run) = User.lastCircuit st
  /\ User.getLastCircuit (User.final run) = User.getLastCircuit st
  /\ User.getLastReceivedMessage (User.final run) = User.getLastReceivedMessage st.
Proof.
  intros Hsel Hin Hkey. cbv zeta. unfold User.sendMessage. rewrite Hsel.
  cbv zeta. rewrite (wrap_unimportable rnd node circuit Hin Hkey).
  repeat split.
Qed.

(** What [/sendMessage] does in each of the ways it can end. *)
Lemma sendMessage_cases
    (fuel : nat) (rnd : User.randomness) (net : network) (st : User.state)
    (message : jsstring) (destinationUserId : Z) (nodes : list Registry.Node) :
  let run := User.sendMessage fuel rnd net st message destinationUserId nodes in
  (User.select fuel (User.Math_random rnd) 0 nodes [] = None
   /\ run = {| User.final := st; User.events := []; User.completion_of := Diverged |})
  \/ (User.lastSentMessage (User.final run) = Some message
      /\ User.lastCircuit (User.final run) = User.lastCircuit st
      /\ User.events run = [] /\ User.completion_of run = Threw)
  \/ (exists n0 n1 n2 onion,
        User.select fuel (User.Math_random rnd) 0 nodes []
        = Some [Some n0; Some n1; Some n2]
        /\ User.wrap rnd 0 [Some n0; Some n1; Some n2]
             (User.address_string (BASE_USER_PORT + destinationUserId)) message
           = Some onion
        /\ User.lastSentMessage (User.final run) = Some message
        /\ User.lastCircuit (User.final run) = [Some n2; Some n1; Some n0]
        /\ let port :=
             Some (Num (BASE_ONION_ROUTER_PORT + Registry.nodeId (User.fields n2))) in
           User.events run
           = Fetch port (Some onion) (net port (Some onion))
             :: fst (after_fetch (net port (Some onion)))
           /\ User.completion_of run = snd (after_fetch (net port (Some onion)))).
Proof.
  cbv zeta.
  destruct (User.select fuel (User.Math_random rnd) 0 nodes []) as [circuit|] eqn:Hsel.
  2:{ left. split; [reflexivity|]. unfold User.sendMessage. now rewrite Hsel. }
  right.
  destruct (User.wrap rnd 0 circuit
              (User.address_string (BASE_USER_PORT + destinationUserId)) message)
    as [onion|] eqn:Hw.
  2:{ left. unfold User.sendMessage. rewrite Hsel. cbv zeta. rewrite Hw.
      repeat split. }
  right.
  pose proof (select_three _ _ _ _ Hsel) as Hl.
  pose proof (wrap_defined _ _ _ _ _ _ Hw) as Hd.
  destruct circuit as [|x0 [|x1 [|x2 [|]]]]; try discriminate.
  inversion Hd as [|? ? D0 Hd1]; subst. inversion Hd1 as [|? ? D1 Hd2]; subst.
  inversion Hd2 as [|? ? D2 _]; subst.
  destruct x0 as [n0|]; [|congruence]. destruct x1 as [n1|]; [|congruence].
  destruct x2 as [n2|]; [|congruence].
  exists n0, n1, n2, onion. split; [reflexivity|]. split; [exact Hw|].
  rewrite (sendMessage_of_circuit fuel rnd net st message destinationUserId nodes
             n0 n1 n2 onion Hsel Hw).
  repeat split.
Qed.

Lemma ids_of_defined (circuit : list (option User.object)) :
  Forall (fun x => x <> None) circuit ->
  exists ids,
    List.fold_right
      (fun x acc =>
         match x with
         | Some node =>
             match acc with
             | Some ids => Some (Registry.nodeId (User.fields node) :: ids)
             | None => None
             end
         | None => None
         end)
      (Some []) circuit = Some ids
    /\ List.length ids = List.length circuit.
Proof.
  induction 1 as [|x rest Hx _ (ids & E & Hl)]; [now exists []|].
  destruct x as [node|]; [|congruence].
  exists (Registry.nodeId (User.fields node) :: ids). cbn [fold_right].
  rewrite E. split; [reflexivity|]. cbn. now rewrite Hl.
Qed.

(** What every state of a user satisfies: the last circuit is empty or
    holds three nodes. *)
Definition circuit_recorded (st : User.state) : Prop :=
  Forall (fun x => x <> None) (User.lastCircuit st)
  /\ (User.lastCircuit st = [] \/ List.length (User.lastCircuit st) = 3).

Lemma user_handle_circuit (st : User.state) (req : UserRoutes.request) :
  circuit_recorded st -> circuit_recorded (fst (UserRoutes.handle st req)).
Proof.
  intros Hst. destruct req; cbn [UserRoutes.handle fst]; try exact Hst.
  unfold UserRoutes.sendMessage. destruct listing as [nodes|]; [|exact Hst].
  pose proof (sendMessage_cases fuel rnd net st message destinationUserId nodes) as H.
  cbv zeta in H.
  destruct H as [[_ ->]|[(_ & E & _)|(n0 & n1 & n2 & onion & _ & _ & _ & E & _)]].
  - exact Hst.
  - unfold circuit_recorded. now rewrite E.
  - unfold circuit_recorded. rewrite E. split; [|now right].
    repeat constructor; discriminate.
Qed.

(** X12. [/getLastCircuit] of a user always answers: whatever requests
    the user has served since its launch, the last circuit holds no
    [undefined] element, so that the handler does not throw, and it
    answers the empty list or exactly three identifiers. *)
Theorem getLastCircuit_always_answers (userId : Z) (reqs : list UserRoutes.request) :
  exists ids,
    User.getLastCircuit (fst (UserRoutes.run (User.launch userId) reqs)) = Some ids
    /\ snd (UserRoutes.handle (fst (UserRoutes.run (User.launch userId) reqs))
              UserRoutes.GET_getLastCircuit) = json_numbers ids
    /\ (ids = [] \/ List.length ids = 3).
Proof.
  assert (K : forall reqs st, circuit_recorded st ->
                circuit_recorded (fst (UserRoutes.run st reqs))).
  { clear. induction reqs as [|req rest IH]; intros st Hst; [exact Hst|].
    cbn [UserRoutes.run].
    pose proof (user_handle_circuit st req Hst) as H.
    destruct (UserRoutes.handle st req) as [st' r]. cbn [fst] in H.
    specialize (IH st' H). destruct (UserRoutes.run st' rest) as [st'' rs].
    exact IH. }
  destruct (K reqs (User.launch userId)) as [Hd Hl].
  { split; [constructor | now left]. }
  destruct (ids_of_defined _ Hd) as (ids & E & Hlen).
  exists ids. cbn [UserRoutes.handle snd]. unfold User.getLastCircuit.
  rewrite E. split; [reflexivity|]. split; [reflexivity|].
  destruct Hl as [Hl|Hl]; [left | right; congruence].
  rewrite Hl in Hlen. now destruct ids.
Qed.

(** X13. What [/sendMessage] leaves behind agrees with what it did.  A
    run that does not get the listing of the registry throws with nothing
    recorded and nothing sent, and a run that never leaves the selection
    loop changes nothing and sends nothing; a run that got the listing
    and left the loop records the message as the last message sent,
    whether it then throws or not.  The handler answers ["success"]
    exactly when it returns; and when it sends a request, it got a
    listing of at least three entries, this request is the only one, and
    it goes to the router of the first node of the circuit then recorded,
    which is the circuit selected in reverse order. *)
Theorem sendMessage_effects
    (fuel : nat) (rnd : User.randomness) (net : network) (st : User.state)
    (message : jsstring) (destinationUserId : Z)
    (listing : option (list Registry.Node)) :
  let run :=
    UserRoutes.sendMessage fuel rnd net st message destinationUserId listing in
  (listing = None ->
   User.final run = st /\ User.events run = [] /\ User.completion_of run = Threw)
  /\ (User.completion_of run = Diverged ->
      User.final run = st /\ User.events run = []
      /\ exists nodes,
           listing = Some nodes
           /\ User.select fuel (User.Math_random rnd) 0 nodes [] = None)
  /\ (forall nodes circuit,
        listing = Some nodes ->
        User.select fuel (User.Math_random rnd) 0 nodes [] = Some circuit ->
        User.getLastSentMessage (User.final run) = Some message)
  /\ (User.final run = st \/ User.getLastSentMessage (User.final run) = Some message)
  /\ (User.events run = [] -> User.lastCircuit (User.final run) = User.lastCircuit st)
  /\ (User.completion_of run = Returned <->
      response (User.events run) = Some (lit "success"))
  /\ (User.events run <> [] ->
      exists nodes entryNode n1 n0 onion result,
        listing = Some nodes
        /\ User.select fuel (User.Math_random rnd) 0 nodes []
           = Some [Some n0; Some n1; Some entryNode]
        /\ 3 <= List.length nodes
        /\ User.getLastSentMessage (User.final run) = Some message
        /\ User.lastCircuit (User.final run) = [Some entryNode; Some n1; Some n0]
        /\ User.events run
           = Fetch (Some (Num (BASE_ONION_ROUTER_PORT
                               + Registry.nodeId (User.fields entryNode))))
                   (Some onion) result
             :: fst (after_fetch result)).
Proof.
  cbv zeta. unfold UserRoutes.sendMessage. destruct listing as [nodes|].
  2:{ cbn. split; [auto|]. split; [discriminate|]. split; [discriminate|].
      split; [now left|]. split; [auto|]. split; [split; discriminate|]. congruence. }
  pose proof (sendMessage_cases fuel rnd net st message destinationUserId nodes) as H.
  cbv zeta in H.
  set (run := User.sendMessage fuel rnd net st message destinationUserId nodes) in *.
  split; [discriminate|].
  destruct H as [[Hs E]|[(E1 & E2 & E3 & E4)|(n0 & n1 & n2 & onion & Hs & _ & E1 & E2 & E3 & E4)]].
  - rewrite E. cbn. split; [intros _; repeat split; now exists nodes|].
    split; [intros nodes' circuit [= <-]; congruence|].
    split; [now left|]. split; [auto|].
    split; [split; discriminate|]. congruence.
  - rewrite E3, E4. split; [discriminate|].
    split; [intros; exact E1|]. split; [now right|]. split; [auto|].
    split; [split; discriminate|]. congruence.
  - cbv zeta in E3, E4. rewrite E3, E4.
    set (port := Some (Num (BASE_ONION_ROUTER_PORT + Registry.nodeId (User.fields n2)))).
    split; [|split; [|split; [|split; [|split]]]].
    + destruct (net port (Some onion)); discriminate.
    + intros; exact E1.
    + now right.
    + discriminate.
    + destruct (net port (Some onion)); cbn; split; (discriminate || reflexivity).
    + intros _. exists nodes, n2, n1, n0, onion, (net port (Some onion)).
      split; [reflexivity|].
      split; [exact Hs|]. split; [exact (select_needs_three _ _ _ _ Hs)|].
      split; [exact E1|]. split; [exact E2 | reflexivity].
Qed.

End UserMore.

(* ================================================================== *)
(** ** The routers, the registry and the user together *)
(* ================================================================== *)

Section NetworkMore.
Import JS JSFacts Text WebCrypto Crypto CryptoFacts Http Reply.
Import RegistryFacts OnionFacts SelectionFacts.
Context {subtle : Subtle} {config : Config}.

Lemma listing_registered (routers : list (Z * bytes)) :
  Network.listing routers
  = Registry.registered (List.map Network.registration routers).
Proof. unfold Network.listing, Network.registry. now rewrite run_nodes. Qed.

Lemma length_listing (routers : list (Z * bytes)) :
  List.length (Network.listing routers) = List.length routers.
Proof.
  rewrite listing_registered.
  induction routers as [|r rest IH]; [reflexivity|]. cbn. now rewrite IH.
Qed.




End NetworkMore.

(* ================================================================== *)
(** ** The further properties on the concrete network *)
(* ================================================================== *)

Section MoreRuns.
Import JS Http Scenario.

(** A layer whose first part decrypts to the empty key. *)
Definition keyless_layer : jsstring :=
  Crypto.arrayBufferToBase64 (List.repeat x00 255 ++ [x01]) ++ lit "anything".

Lemma router_records_null_witness :
  message unreachable (router 2) keyless_layer
  = {| OnionRouter.final :=
         {| OnionRouter.nodeId := OnionRouter.nodeId (router 2);
            OnionRouter.privateKey := OnionRouter.privateKey (router 2);
            OnionRouter.lastMessageSource := Some (OnionRouter.nodeId (router 2));
            OnionRouter.lastMessageDestination := None;
            OnionRouter.lastReceivedEncryptedMessage := Some keyless_layer;
            OnionRouter.lastReceivedDecryptedMessage := None |};
       OnionRouter.events := [Fetch None None Rejected];
       OnionRouter.completion_of := Threw |}
  /\ response (OnionRouter.events (message unreachable (router 2) keyless_layer)) = None.
Proof.
  destruct (@router_records_null Transparent.subtle unreachable (router 2) []
              keyless_layer) as (R & _ & Hr & _).
  - reflexivity.
  - left. vm_compute. reflexivity.
  - reflexivity.
  - split; [exact R | exact Hr].
Defined.

(** The router 2 after it has handled some message. *)
Definition used_router : OnionRouter.state :=
  {| OnionRouter.nodeId := 2;
     OnionRouter.privateKey := OnionRouter.privateKey (router 2);
     OnionRouter.lastMessageSource := Some 2%Z;
     OnionRouter.lastMessageDestination := Some (Num 4001);
     OnionRouter.lastReceivedEncryptedMessage := Some (lit "earlier");
     OnionRouter.lastReceivedDecryptedMessage := Some (lit "before") |}.

Lemma router_fields_overwritten_witness :
  message reliable (router 2) keyless_layer = message reliable used_router keyless_layer.
Proof.
  apply (@router_fields_overwritten Transparent.subtle reliable (router 2) used_router
           keyless_layer).
  - reflexivity.
  - reflexivity.
  - vm_compute. discriminate.
Defined.

(** A listing whose second entry carries a public key that is no key. *)
Definition unusable : Registry.Node :=
  {| Registry.nodeId := 9; Registry.pubKey := lit "garbage" |}.

Definition spoiled_nodes : list Registry.Node :=
  [User.fields n0; unusable; User.fields n2].

Lemma sendMessage_unimportable_key_witness :
  let run := sendMessage 4 randomness reliable (User.launch 1) (lit "hello") 7
               spoiled_nodes in
  User.events run = []
  /\ User.completion_of run = Threw
  /\ response (User.events run) = None
  /\ User.getLastSentMessage (User.final run) = Some (lit "hello")
  /\ User.lastCircuit (User.final run) = User.lastCircuit (User.launch 1)
  /\ User.getLastCircuit (User.final run) = User.getLastCircuit (User.launch 1)
  /\ User.getLastReceivedMessage (User.final run)
     = User.getLastReceivedMessage (User.launch 1).
Proof.
  apply (@sendMessage_unimportable_key Transparent.subtle Transparent.config
           4 randomness reliable (User.launch 1) (lit "hello") 7 spoiled_nodes
           [Some (User.Obj 0 (User.fields n0)); Some (User.Obj 1 unusable);
            Some (User.Obj 2 (User.fields n2))]
           (User.Obj 1 unusable)).
  - vm_compute. reflexivity.
  - right. left. reflexivity.
  - vm_compute. reflexivity.
Defined.



End MoreRuns.

(* ================================================================== *)
(** ** What the selection loop reads *)
(* ================================================================== *)

Section SelectionMore.
Import JS Registry User SelectionFacts.

Lemma element_address (nodes nodes' : list Node) (i : N) :
  List.length nodes = List.length nodes' ->
  option_map address (element nodes i) = option_map address (element nodes' i).
Proof.
  intros Hlen. unfold element.
  destruct (nth_error nodes (N.to_nat i)) as [n|] eqn:E;
    destruct (nth_error nodes' (N.to_nat i)) as [n'|] eqn:E'; try reflexivity.
  - apply nth_error_None in E'. assert (H : nth_error nodes (N.to_nat i) <> None)
      by congruence. apply nth_error_Some in H. lia.
  - apply nth_error_None in E. assert (H : nth_error nodes' (N.to_nat i) <> None)
      by congruence. apply nth_error_Some in H. lia.
Qed.

Lemma includes_identities (circuit circuit' : list (option object))
    (x x' : option object) :
  identities circuit = identities circuit' ->
  option_map address x = option_map address x' ->
  includes circuit x = includes circuit' x'.
Proof.
  intros Hc Hx. apply Bool.eq_iff_eq_true.
  rewrite !includes_spec. now rewrite Hc, Hx.
Qed.

(** X15. The selection loop reads the length of the listing and the
    identity of its entries, never their [nodeId] or [pubKey]: on two
    listings of the same length, and from circuits that hold the entries
    of the same positions, the same random draws leave the loop after the
    same number of iterations, with the entries of the same positions in
    the same order. *)
Theorem selection_ignores_contents
    (fuel : nat) (random : nat -> N) (nodes nodes' : list Node)
    (k : nat) (circuit circuit' : list (option object)) :
  List.length nodes = List.length nodes' ->
  identities circuit = identities circuit' ->
  option_map identities (select fuel random k nodes circuit)
  = option_map identities (select fuel random k nodes' circuit').
Proof.
  intros Hlen. revert k circuit circuit'.
  induction fuel as [|fuel IH]; intros k circuit circuit' Hc;
    assert (Hl : List.length circuit = List.length circuit')
      by (unfold identities in Hc; apply (f_equal (@List.length _)) in Hc;
          now rewrite !length_map in Hc);
    cbn [select]; rewrite <- Hl; try rewrite <- Hlen;
    destruct (List.length circuit <? 3); cbn [option_map]; try congruence.
  cbv zeta.
  set (i := randomIndex (random k) (N.of_nat (List.length nodes))).
  pose proof (element_address nodes nodes' i Hlen) as He.
  rewrite (includes_identities circuit circuit' _ _ Hc He).
  destruct (includes circuit' (element nodes' i)); cbn [negb].
  - now apply IH.
  - apply IH. rewrite !identities_push. now rewrite Hc, He.
Qed.

End SelectionMore.

Lemma selection_ignores_contents_witness :
  option_map SelectionFacts.identities
    (User.select 4 Scenario.quarters 0 spoiled_nodes [])
  = option_map SelectionFacts.identities
      (User.select 4 Scenario.quarters 0
         [User.fields Scenario.n0; User.fields Scenario.n1; User.fields Scenario.n2] []).
Proof.
  apply (selection_ignores_contents 4 Scenario.quarters spoiled_nodes
           [User.fields Scenario.n0; User.fields Scenario.n1; User.fields Scenario.n2]
           0 [] []).
  - reflexivity.
  - reflexivity.
Defined.
